(** * svgiconfont: codepoint allocation, stylesheet generation and output
      dispatch of [src/index.ts], embedded and verified.

    Numbers are modelled as mathematical integers ([Z]): the starting
    codepoint and the overrides of a request are taken to be integers, as
    code points are; [NaN], the infinities and fractions are outside the
    model.  A JavaScript number is a double: [+ 1] is exact while the
    integers stay within the safe range (below 2^53 in magnitude), and the
    statements that depend on the arithmetic of the cursor carry that range
    as a hypothesis.
    The codepoint table is an ordinary object used as a
    [Record<string, number>]: its own properties are kept in creation order,
    with the enumeration order of [Object.entries] and [Object.values];
    reading and writing a property go through [Object.prototype] as the
    language has it.
    [path], [fs] and the font libraries are collaborators: the pipeline is
    stated for every behaviour they may have. *)

From Stdlib Require Import ZArith NArith Ascii String HexString List Lia Sorted Permutation.
From stdpp Require Import base option list strings gmap sorting.

Local Open Scope string_scope.
Local Open Scope list_scope.
Local Open Scope Z_scope.

(** ** Ordinary objects used as string-keyed records *)

Module JsObject.

(** Own properties in creation order; keys are unique. *)
Abbreviation t := (list (string * Z)).

Fixpoint get (o : t) (k : string) : option Z :=
  match o with
  | [] => None
  | (k', v) :: o' => if decide (k' = k) then Some v else get o' k
  end.

(** [o[k] = v]: an existing property keeps its position, a new one is
    created last. *)
Fixpoint set (o : t) (k : string) (v : Z) : t :=
  match o with
  | [] => [(k, v)]
  | (k', v') :: o' =>
      if decide (k' = k) then (k', v) :: o' else (k', v') :: set o' k v
  end.

Definition digit_of (c : ascii) : option N :=
  let n := N_of_ascii c in
  if ((48 <=? n) && (n <=? 57))%N then Some (n - 48)%N else None.

Fixpoint parse_digits (s : string) (acc : N) : option N :=
  match s with
  | EmptyString => Some acc
  | String c s' =>
      match digit_of c with
      | Some d => parse_digits s' (10 * acc + d)%N
      | None => None
      end
  end.

(** A key is an array index when it is the canonical decimal form of an
    integer in [0, 2^32 - 2]. *)
Definition array_index (k : string) : option N :=
  match k with
  | EmptyString => None
  | String "0"%char (String _ _) => None
  | _ =>
      match parse_digits k 0%N with
      | Some n => if (n <? 4294967295)%N then Some n else None
      | None => None
      end
  end.

Definition indexed (o : t) : list (N * (string * Z)) :=
  omap (λ p, match array_index p.1 with
             | Some i => Some (i, p)
             | None => None
             end) o.

Definition index_le (a b : N * (string * Z)) : Prop := (a.1 ≤ b.1)%N.

#[global] Instance index_le_dec a b : Decision (index_le a b).
Proof. unfold index_le. apply _. Defined.

Definition named (o : t) : t :=
  filter (λ p, array_index p.1 = None) o.

(** [Object.entries(o)]: array-index keys in ascending numeric order,
    then the other keys in creation order. *)
Definition entries (o : t) : t :=
  (merge_sort index_le (indexed o)).*2 ++ named o.

(** [Object.values(o)] *)
Definition values (o : t) : list Z := (entries o).*2.

Definition keys (o : t) : list string := (entries o).*1.

(** The members every ordinary object inherits from [Object.prototype]. *)
Definition inherited_members : list string :=
  ["constructor"; "__defineGetter__"; "__defineSetter__"; "hasOwnProperty";
   "__lookupGetter__"; "__lookupSetter__"; "isPrototypeOf";
   "propertyIsEnumerable"; "toString"; "valueOf"; "__proto__";
   "toLocaleString"].

Definition inherited (k : string) : bool :=
  bool_decide (k ∈ inherited_members).

(** What [o[k]] evaluates to: the number of an own property, else the
    inherited member (a function, or the prototype itself), else
    [undefined]. *)
Inductive value :=
  | Number (n : Z)
  | Member
  | Undefined.

Definition read (o : t) (k : string) : value :=
  match get o k with
  | Some n => Number n
  | None => if inherited k then Member else Undefined
  end.

(** [o[k] = v] for a number [v]: the inherited setter of [__proto__]
    ignores a number and stores nothing; any other key gets an own
    property. *)
Definition write (o : t) (k : string) (v : Z) : t :=
  if decide (k = "__proto__") then o else set o k v.

(** The property key that an inherited member turns into when it is used
    as one. *)
Definition member_as_key (k : string) : string :=
  if decide (k = "__proto__") then "[object Object]"
  else if decide (k = "constructor") then "function Object() { [native code] }"
  else "function " +:+ k +:+ "() { [native code] }".

End JsObject.

(** ** Request *)

Record CssOptions := {
  classPrefix : option string;
  baseSelector : option string
}.

Record SvgIcons2FontOptions := {
  fontId : option string;
  fontStyle : option string;
  fontWeight : option string;
  fixedWidth : option bool;
  centerHorizontally : option bool;
  centerVertically : option bool;
  normalize : option bool;
  fontHeight : option Z;
  round : option Z;
  descent : option Z;
  ascent : option Z
}.

Record Svg2TTfOptions := {
  copyright : option string;
  description : option string;
  ts : option Z;
  url : option string;
  version : option string
}.

Record GenerateOptions := {
  fontName : string;
  files : list string;
  dest : string;
  types : option (list string);
  startCodepoint : option Z;
  codepoints : option JsObject.t;
  renames : option (gmap string string);
  options : option (SvgIcons2FontOptions * Svg2TTfOptions);
  cssOptions : option CssOptions
}.

(** [options.options] *)
Definition options_of (o : GenerateOptions) :
    option (SvgIcons2FontOptions * Svg2TTfOptions) :=
  options o.

Definition DEFAULT_BASE_SELECTOR : string := ".icon".
Definition DEFAULT_CLASS_PREFIX : string := "icon-".
Definition DEFAULT_START_CODEPOINT : Z := 0xf101.
Definition DEFAULT_FILE_OUTPUTS : list string := ["woff2"; "woff"].

(** ** Codepoint allocation ([generateSvgFont], first half) *)

Record Allocator := {
  table : JsObject.t;              (* the local [codepoints] *)
  names : gmap string string;      (* the local [names] *)
  currentCodepoint : Z
}.

Definition includes (items : list Z) (x : Z) : bool :=
  existsb (Z.eqb x) items.

(** The [do { currentCodepoint += 1 } while (items.includes(...))] loop.
    Each further turn of the loop finds another, larger member of [items],
    so [length items] turns are all it can take. *)
Fixpoint probe (turns : nat) (items : list Z) (cur : Z) : Z :=
  let cur' := cur + 1 in
  match turns with
  | O => cur'
  | S turns' => if includes items cur' then probe turns' items cur' else cur'
  end.

(** Big-step reading of the same loop, as the source states it. *)
Inductive do_while (items : list Z) : Z → Z → Prop :=
  | do_while_exit cur :
      includes items (cur + 1) = false → do_while items cur (cur + 1)
  | do_while_again cur v :
      includes items (cur + 1) = true → do_while items (cur + 1) v →
      do_while items cur v.

Definition newCodepoint (st : Allocator) : Z * Allocator :=
  let items := JsObject.values (table st) in
  let c := probe (length items) items (currentCodepoint st) in
  (c, {| table := table st; names := names st; currentCodepoint := c |}).

(** [!codepoints[name]]: [undefined] and the number 0 are falsy, an
    inherited member is not. *)
Definition falsy (v : JsObject.value) : bool :=
  match v with
  | JsObject.Undefined => true
  | JsObject.Member => false
  | JsObject.Number n => n =? 0
  end.

Section Allocation.

(** [path.parse(file).name] *)
Variable path_name : string → string.

(** [renames[filename]]: an own entry, or the member the renames object
    inherits under that name, which then serves as the name; the name is
    kept as the property key it stands for. *)
Definition lookup_rename (r : gmap string string) (filename : string)
    : option string :=
  match r !! filename with
  | Some name => Some name
  | None =>
      if JsObject.inherited filename
      then Some (JsObject.member_as_key filename)
      else None
  end.

Definition resolve_name (options : GenerateOptions) (file : string) : string :=
  let filename := path_name file in
  default filename (renames options ≫= λ r, lookup_rename r filename).

(** Body of the first [options.files.map]. *)
Definition assign_file (options : GenerateOptions) (st : Allocator)
    (file : string) : Allocator :=
  let name := resolve_name options file in
  let st1 :=
    if falsy (JsObject.read (table st) name) then
      let '(c, st') := newCodepoint st in
      {| table := JsObject.write (table st') name c;
         names := names st';
         currentCodepoint := currentCodepoint st' |}
    else st in
  {| table := table st1;
     names := <[file := name]> (names st1);
     currentCodepoint := currentCodepoint st1 |}.

(** Seeding from [Object.entries(options.codepoints ?? {})]. *)
Definition seed (overrides : JsObject.t) : JsObject.t :=
  foldl (λ o p, JsObject.write o p.1 p.2) [] (JsObject.entries overrides).

Definition initial (options : GenerateOptions) : Allocator :=
  {| table := seed (default [] (codepoints options));
     names := ∅;
     currentCodepoint := default DEFAULT_START_CODEPOINT (startCodepoint options) |}.

Definition assign_codepoints (options : GenerateOptions) : Allocator :=
  foldl (assign_file options) (initial options) (files options).

End Allocation.

(** ** Glyph records ([generateSvgFont], second half) *)

Inductive JsError :=
  | Error (message : string)
  | RangeError (message : string).

Inductive result (A : Type) :=
  | Ok (a : A)
  | Throw (e : JsError).
Arguments Ok {A} a.
Arguments Throw {A} e.

#[global] Instance result_ret : MRet result := λ A a, Ok a.
#[global] Instance result_fmap : FMap result := λ A B f m,
  match m with
  | Ok a => Ok (f a)
  | Throw e => Throw e
  end.
#[global] Instance result_bind : MBind result := λ A B f m,
  match m with
  | Ok a => f a
  | Throw e => Throw e
  end.

Module Metadata.
Record t := {
  name : string;
  unicode : list Z;    (* code points of the one-character strings *)
  renamed : bool;
  path : string
}.
End Metadata.

(** [String.fromCodePoint(u)] raises a [RangeError] unless [u] is an
    integer in [0, 0x10FFFF] (a member or [undefined] converts to [NaN]);
    the character is kept as its code point. *)
Definition String_fromCodePoint (u : JsObject.value) : result Z :=
  match u with
  | JsObject.Number n =>
      if (0 <=? n) && (n <=? 0x10FFFF) then Ok n
      else Throw (RangeError "Invalid code point")
  | JsObject.Member | JsObject.Undefined =>
      Throw (RangeError "Invalid code point")
  end.

(** Body of the second [options.files.map]; a key that is [undefined]
    reads the property of that name. *)
Definition glyph_of (st : Allocator) (file : string) : result Metadata.t :=
  let name := default "undefined" (names st !! file) in
  let unicode := JsObject.read (table st) name in
  c ← String_fromCodePoint unicode;
  Ok {| Metadata.name := name;
        Metadata.unicode := [c];
        Metadata.renamed := false;
        Metadata.path := file |}.

Fixpoint glyphs_of (st : Allocator) (files : list string)
    : result (list Metadata.t) :=
  match files with
  | [] => Ok []
  | file :: rest =>
      g ← glyph_of st file;
      gs ← glyphs_of st rest;
      Ok (g :: gs)
  end.

(** ** Stylesheet text ([generateCssContent]) *)

Definition dquote : string := String (ascii_of_nat 34) EmptyString.
Definition backslash : string := String (ascii_of_nat 92) EmptyString.
Definition newline : string := String (ascii_of_nat 10) EmptyString.
Definition tab : string := String (ascii_of_nat 9) EmptyString.

(** [n.toString(16)] for an integer [n]. *)
Definition toString16 (n : Z) : string :=
  match n with
  | Z0 => "0"
  | Zpos p => HexString.Raw.of_pos p EmptyString
  | Zneg p => "-" +:+ HexString.Raw.of_pos p EmptyString
  end.

Definition requested (options : GenerateOptions) : list string :=
  default DEFAULT_FILE_OUTPUTS (types options).

Definition FONT_ORDER : list string := ["woff2"; "woff"; "ttf"; "svg"].

Definition font_format (type : string) : string :=
  if decide (type = "ttf") then "truetype" else type.

Definition src_types (options : GenerateOptions) : list string :=
  filter (λ type, type ∈ requested options) FONT_ORDER.

Definition src_entry (options : GenerateOptions) (type : string) : string :=
  "url(" +:+ dquote +:+ "./" +:+ fontName options +:+ "." +:+ type +:+ dquote
  +:+ ") format(" +:+ dquote +:+ font_format type +:+ dquote +:+ ")".

Definition src_entries (options : GenerateOptions) : list string :=
  src_entry options <$> src_types options.

Definition selector_of (options : GenerateOptions) : string :=
  default DEFAULT_BASE_SELECTOR (cssOptions options ≫= baseSelector).

Definition classPrefix_of (options : GenerateOptions) : string :=
  default DEFAULT_CLASS_PREFIX (cssOptions options ≫= classPrefix).

Definition font_face (options : GenerateOptions) : string :=
  "@font-face { font-family: " +:+ fontName options +:+ "; src: "
  +:+ String.concat "," (src_entries options) +:+ "; }".

Definition base_rule (options : GenerateOptions) : string :=
  let t3 := tab +:+ tab +:+ tab in
  selector_of options +:+ " {" +:+ newline
  +:+ t3 +:+ "display: inline-block;" +:+ newline
  +:+ newline
  +:+ t3 +:+ "font-family: " +:+ fontName options +:+ " !important;" +:+ newline
  +:+ t3 +:+ "font-style: normal;" +:+ newline
  +:+ t3 +:+ "font-variant: normal;" +:+ newline
  +:+ newline
  +:+ t3 +:+ "line-height: 1;" +:+ newline
  +:+ t3 +:+ "text-rendering: auto;" +:+ newline
  +:+ t3 +:+ "vertical-align: middle;" +:+ newline
  +:+ tab +:+ tab +:+ "}".

Definition icon_rule (options : GenerateOptions) (entry : string * Z) : string :=
  let name := entry.1 in
  let value := backslash +:+ toString16 entry.2 in
  selector_of options +:+ "." +:+ classPrefix_of options +:+ name
  +:+ ":before { content: " +:+ dquote +:+ value +:+ dquote +:+ "; }".

Definition icon_rules (options : GenerateOptions) (codepoints : JsObject.t)
    : list string :=
  icon_rule options <$> JsObject.entries codepoints.

Definition generateCssContent (options : GenerateOptions)
    (codepoints : JsObject.t) : string :=
  String.concat newline
    ([font_face options; base_rule options] ++ icon_rules options codepoints).

(** ** Output writer and pipeline (the default export) *)

Inductive Payload :=
  | Text (s : string)
  | Binary (b : list Byte.byte).

Section Pipeline.

(** The file system and the font libraries are collaborators. *)
Context {FS : Type}.
Variable path_name : string → string.
Variable path_resolve : string → string → string.
Variable existsSync : FS → string → bool.
Variable mkdirSync : FS → string → result FS.
Variable writeFileSync : FS → string → Payload → result FS.
Variable SvgIcons2Font :
  FS → string → option (SvgIcons2FontOptions * Svg2TTfOptions) →
  list Metadata.t → result string.
Variable Svg2Ttf :
  string → option (SvgIcons2FontOptions * Svg2TTfOptions) →
  result (list Byte.byte).
Variable Ttf2Woff : list Byte.byte → result (list Byte.byte).
Variable Ttf2Woff2 : list Byte.byte → result (list Byte.byte).

Record World := {
  disk : FS;
  written : list (string * Payload);   (* completed [writeFileSync] calls *)
  console : list string
}.

Definition generateSvgFont (options : GenerateOptions) (fs : FS)
    : result (string * JsObject.t) :=
  let st := assign_codepoints path_name options in
  glyphs ← glyphs_of st (files options);
  font ← SvgIcons2Font fs (fontName options) (options_of options) glyphs;
  Ok (font, table st).

(** The [switch (type)] of the writer. *)
Definition data (css svg : string) (ttf : list Byte.byte) (type : string)
    : result Payload :=
  if decide (type = "css") then Ok (Text css)
  else if decide (type = "ttf") then Ok (Binary ttf)
  else if decide (type = "woff") then Binary <$> Ttf2Woff ttf
  else if decide (type = "woff2") then Binary <$> Ttf2Woff2 ttf
  else if decide (type = "svg") then Ok (Text svg)
  else Throw (Error EmptyString).

Definition output_path (options : GenerateOptions) (type : string) : string :=
  path_resolve (dest options) (fontName options +:+ "." +:+ type).

(** One callback of the [map] over [['css', ...types]]. *)
Definition write_output (options : GenerateOptions) (css svg : string)
    (ttf : list Byte.byte) (w : World) (type : string) : result World :=
  let output := output_path options type in
  d ← data css svg ttf type;
  fs' ← writeFileSync (disk w) output d;
  Ok {| disk := fs';
        written := written w ++ [(output, d)];
        console := console w ++ ["generated " +:+ output] |}.

(** The order in which the callbacks reach their write.  Each callback
    awaits its payload: the payloads of css, ttf, woff, svg and the failure
    of an unknown type are settled when [data] returns, so these callbacks
    resume first, in list order; the woff2 payload is the converter's
    promise and settles later. *)
Definition schedule (types : list string) : list string :=
  filter (λ type, type ≠ "woff2") types ++ filter (λ type, type = "woff2") types.

(** [Promise.all] over the callbacks: every callback runs, whatever the
    others do, and the first failure is the one reported. *)
Fixpoint Promise_all (job : World → string → result World) (w : World)
    (types : list string) : World * result () :=
  match types with
  | [] => (w, Ok ())
  | type :: rest =>
      match job w type with
      | Ok w' => Promise_all job w' rest
      | Throw e => ((Promise_all job w rest).1, Throw e)
      end
  end.

Definition generate (options : GenerateOptions) (w : World)
    : World * result () :=
  let made :=
    if existsSync (disk w) (dest options) then Ok (disk w)
    else mkdirSync (disk w) (dest options) in
  match made with
  | Throw e => (w, Throw e)
  | Ok fs1 =>
      let w1 := {| disk := fs1; written := written w; console := console w |} in
      match generateSvgFont options fs1 with
      | Throw e => (w1, Throw e)
      | Ok (svg, codepoints) =>
          let css := generateCssContent options codepoints in
          match Svg2Ttf svg (options_of options) with
          | Throw e => (w1, Throw e)
          | Ok ttf =>
              Promise_all (write_output options css svg ttf) w1
                (schedule ("css" :: requested options))
          end
      end
  end.

End Pipeline.

(** ** Auxiliary definitions used to state the properties *)

(** One call of [newCodepoint] made while the files are visited. *)
Record Assignment := {
  assigned_name : string;
  assigned_value : Z;
  table_before : JsObject.t
}.

Fixpoint auto_assigned (path_name : string → string) (options : GenerateOptions)
    (st : Allocator) (files : list string) : list Assignment :=
  match files with
  | [] => []
  | file :: rest =>
      let name := resolve_name path_name options file in
      (if falsy (JsObject.read (table st) name) then
         [{| assigned_name := name;
             assigned_value := (newCodepoint st).1;
             table_before := table st |}]
       else [])
      ++ auto_assigned path_name options (assign_file path_name options st file) rest
  end.

Definition auto_values (path_name : string → string) (options : GenerateOptions)
    : list Z :=
  assigned_value <$>
    auto_assigned path_name options (initial options) (files options).

Fixpoint skip (c : ascii) (l : list ascii) : list ascii :=
  match l with
  | x :: l' => if decide (x = c) then skip c l' else l
  | [] => []
  end.

Fixpoint upto (c : ascii) (l : list ascii) : list ascii :=
  match l with
  | x :: l' => if decide (x = c) then [] else x :: upto c l'
  | [] => []
  end.

(** [path.parse(p).name] on POSIX paths: the last path segment without its
    extension.  Used for the worked examples; the general statements hold
    for every [path_name]. *)
Definition posix_name (p : string) : string :=
  let slash := "/"%char in
  let dot := "."%char in
  let rbase := upto slash (skip slash (reverse (list_ascii_of_string p))) in
  let rext := upto dot rbase in
  let rpre := drop (S (length rext)) rbase in
  if decide (length rext = length rbase) then string_of_list_ascii (reverse rbase)
  else if decide (rpre = []) then string_of_list_ascii (reverse rbase)
  else if decide (rbase = [dot; dot]) then string_of_list_ascii (reverse rbase)
  else string_of_list_ascii (reverse rpre).

Definition request (files : list string) (start : option Z)
    (overrides : option JsObject.t) (renames : option (gmap string string))
    : GenerateOptions :=
  {| fontName := "icon"; files := files; dest := "output"; types := None;
     startCodepoint := start; codepoints := overrides; renames := renames;
     options := None; cssOptions := None |}.

Definition typed_request (fontName : string) (types : option (list string))
    : GenerateOptions :=
  {| fontName := fontName; files := []; dest := "output"; types := types;
     startCodepoint := None; codepoints := None; renames := None;
     options := None; cssOptions := None |}.

(** The digits [toString(16)] may produce. *)
Definition lower_hex (c : ascii) : Prop :=
  c ∈ list_ascii_of_string "0123456789abcdef".

(** Stand-ins for the collaborators, to run the pipeline on examples: a
    file system where every call succeeds and font libraries that return
    fixed documents. *)
Module Sample.
Definition path_resolve (dir file : string) : string := dir +:+ "/" +:+ file.
Definition existsSync (fs : ()) (p : string) : bool := true.
Definition mkdirSync (fs : ()) (p : string) : result () := Ok fs.
Definition writeFileSync (fs : ()) (p : string) (d : Payload) : result () :=
  Ok fs.
Definition SvgIcons2Font (fs : ()) (name : string)
    (o : option (SvgIcons2FontOptions * Svg2TTfOptions))
    (glyphs : list Metadata.t) : result string := Ok "<svg/>".
Definition Svg2Ttf (svg : string)
    (o : option (SvgIcons2FontOptions * Svg2TTfOptions))
    : result (list Byte.byte) := Ok [].
Definition Ttf2Woff (ttf : list Byte.byte) : result (list Byte.byte) := Ok ttf.
Definition Ttf2Woff2 (ttf : list Byte.byte) : result (list Byte.byte) := Ok ttf.
Definition world : World := {| disk := (); written := []; console := [] |}.
Definition generate (options : GenerateOptions) : World * result () :=
  generate posix_name path_resolve existsSync mkdirSync writeFileSync
    SvgIcons2Font Svg2Ttf Ttf2Woff Ttf2Woff2 options world.
End Sample.

Definition KNOWN_OUTPUTS : list string := ["css"; "ttf"; "woff"; "woff2"; "svg"].

(** The table that visiting [names] in order gives when every name is new
    and nothing stands in the way: consecutive codepoints after [c]. *)
Fixpoint number_from (c : Z) (names : list string) : JsObject.t :=
  match names with
  | [] => []
  | n :: rest => (n, c + 1) :: number_from (c + 1) rest
  end.



(** The first step of the default export: the destination is created only
    when it does not exist. *)
Definition ensure_dest {FS : Type} (existsSync : FS → string → bool)
    (mkdirSync : FS → string → result FS) (options : GenerateOptions)
    (fs : FS) : result FS :=
  if existsSync fs (dest options) then Ok fs else mkdirSync fs (dest options).

(** Stand-ins for a destination that is missing and cannot be created. *)
Definition missing_dest (fs : ()) (p : string) : bool := false.
Definition mkdir_denied (fs : ()) (p : string) : result () :=
  Throw (Error "EACCES").

Definition listed_request (files types : list string) : GenerateOptions :=
  {| fontName := "icon"; files := files; dest := "output"; types := Some types;
     startCodepoint := None; codepoints := None; renames := None;
     options := None; cssOptions := None |}.

(** [Number.isSafeInteger]: the integers on which [+ 1] is exact. *)
Definition safe_integer (z : Z) : Prop := - 2 ^ 53 < z ∧ z < 2 ^ 53.

(** A request whose cursor cannot leave the safe integers: it advances at
    most once per file and once per override. *)
Definition within_safe_integers (options : GenerateOptions) : Prop :=
  - 2 ^ 53 < default DEFAULT_START_CODEPOINT (startCodepoint options)
  ∧ default DEFAULT_START_CODEPOINT (startCodepoint options)
    + Z.of_nat (length (files options))
    + Z.of_nat (length (default [] (codepoints options))) < 2 ^ 53.

(** Names that are not members of [Object.prototype]. *)
Definition ordinary (name : string) : Prop := JsObject.inherited name = false.

(** * Properties *)

(** ** Facts about objects *)

Section ObjectFacts.

Implicit Types (o : JsObject.t) (k : string) (v : Z).

Lemma get_set_eq o k v : JsObject.get (JsObject.set o k v) k = Some v.
Proof.
  induction o as [|[k' v'] o IH]; simpl.
  - by rewrite decide_True.
  - destruct (decide (k' = k)) as [->|Hne]; simpl.
    + by rewrite decide_True.
    + by rewrite decide_False.
Qed.

Lemma get_set_ne o k k' v :
  k ≠ k' → JsObject.get (JsObject.set o k v) k' = JsObject.get o k'.
Proof.
  intros Hne. induction o as [|[k0 v0] o IH]; simpl.
  - by rewrite decide_False.
  - destruct (decide (k0 = k)) as [->|Hk]; simpl.
    + by rewrite !decide_False.
    + by rewrite IH.
Qed.

Lemma get_None o k : JsObject.get o k = None ↔ k ∉ o.*1.
Proof.
  induction o as [|[k' v'] o IH]; simpl.
  - split; [intros _; apply not_elem_of_nil | done].
  - rewrite not_elem_of_cons. destruct (decide (k' = k)) as [->|Hne].
    + split; [done | intros [? _]; done].
    + rewrite IH. split; [intros H; split; [congruence | done] | by intros [_ H]].
Qed.

Lemma get_Some_elem o k v : JsObject.get o k = Some v → (k, v) ∈ o.
Proof.
  induction o as [|[k' v'] o IH]; simpl; [done|].
  destruct (decide (k' = k)) as [->|Hne].
  - intros [= ->]. apply list_elem_of_here.
  - intros H. apply list_elem_of_further. auto.
Qed.

Lemma elem_get_Some o k v :
  NoDup o.*1 → (k, v) ∈ o → JsObject.get o k = Some v.
Proof.
  induction o as [|[k' v'] o IH]; simpl.
  - intros _ H. by apply elem_of_nil in H.
  - rewrite NoDup_cons. intros [Hk Hnd] Hin.
    apply elem_of_cons in Hin as [[= -> ->]|Hin].
    + by rewrite decide_True.
    + rewrite decide_False; [auto|].
      intros ->. apply Hk. apply list_elem_of_fmap. by exists (k, v).
Qed.

Lemma set_absent o k v :
  JsObject.get o k = None → JsObject.set o k v = o ++ [(k, v)].
Proof.
  induction o as [|[k' v'] o IH]; simpl; [done|].
  destruct (decide (k' = k)); [done|]. intros H. by rewrite IH.
Qed.

Lemma set_keys o k v :
  (JsObject.set o k v).*1 =
  if JsObject.get o k is Some _ then o.*1 else o.*1 ++ [k].
Proof.
  induction o as [|[k' v'] o IH]; csimpl; [done|].
  destruct (decide (k' = k)); csimpl; [done|].
  rewrite IH. by destruct (JsObject.get o k).
Qed.

Lemma set_keys_NoDup o k v : NoDup o.*1 → NoDup (JsObject.set o k v).*1.
Proof.
  intros Hnd. rewrite set_keys.
  destruct (JsObject.get o k) eqn:Hget; [done|].
  apply NoDup_app. split_and!; [done| |apply NoDup_singleton].
  intros x Hx Hx'. apply list_elem_of_singleton in Hx' as ->.
  by apply get_None in Hget.
Qed.

Lemma set_values_elem o k v x :
  x ∈ (JsObject.set o k v).*2 → x = v ∨ x ∈ o.*2.
Proof.
  induction o as [|[k' v'] o IH]; csimpl.
  - intros H. apply list_elem_of_singleton in H. by left.
  - destruct (decide (k' = k)); csimpl; rewrite !elem_of_cons; tauto.
Qed.

Lemma set_values_NoDup o k v :
  NoDup o.*2 → v ∉ o.*2 → NoDup (JsObject.set o k v).*2.
Proof.
  induction o as [|[k' v'] o IH]; csimpl.
  - intros _ _. apply NoDup_singleton.
  - rewrite NoDup_cons, not_elem_of_cons. intros [Hv' Hnd] [Hne Hv].
    destruct (decide (k' = k)); csimpl; apply NoDup_cons.
    + done.
    + split; [|auto]. intros Hin.
      apply set_values_elem in Hin as [->|Hin]; done.
Qed.

(** Enumeration reorders the properties, it neither drops nor adds one. *)
Lemma entries_Permutation o : JsObject.entries o ≡ₚ o.
Proof.
  unfold JsObject.entries, JsObject.named.
  rewrite merge_sort_Permutation.
  assert ((JsObject.indexed o).*2
          = filter (λ p, ¬ JsObject.array_index p.1 = None) o) as ->.
  { unfold JsObject.indexed. induction o as [|[k v] o IH]; [done|].
    csimpl. rewrite filter_cons. csimpl.
    destruct (JsObject.array_index k) eqn:Hk; csimpl.
    - by rewrite IH.
    - done. }
  rewrite (comm (++)). apply filter_app_complement.
Qed.

Lemma values_Permutation o : JsObject.values o ≡ₚ o.*2.
Proof. unfold JsObject.values. by rewrite entries_Permutation. Qed.

Lemma keys_Permutation o : JsObject.keys o ≡ₚ o.*1.
Proof. unfold JsObject.keys. by rewrite entries_Permutation. Qed.

(** Without array-index keys, enumeration order is creation order. *)
Lemma entries_named o :
  Forall (λ p, JsObject.array_index p.1 = None) o → JsObject.entries o = o.
Proof.
  intros Hall. unfold JsObject.entries, JsObject.named.
  assert (JsObject.indexed o = []) as ->.
  { unfold JsObject.indexed. induction Hall as [|[k v] o Hk _ IH]; [done|].
    simpl in *. by rewrite Hk. }
  simpl. induction Hall as [|p o Hp _ IH]; [done|].
  rewrite filter_cons, decide_True by done. by rewrite IH.
Qed.

Lemma includes_spec (items : list Z) x : includes items x = true ↔ x ∈ items.
Proof.
  unfold includes. rewrite existsb_exists. split.
  - intros (y & Hy & Heq). apply Z.eqb_eq in Heq as ->.
    by apply list_elem_of_In.
  - intros H. exists x. split; [by apply list_elem_of_In | apply Z.eqb_refl].
Qed.

Lemma includes_false (items : list Z) x : includes items x = false ↔ x ∉ items.
Proof.
  rewrite <- includes_spec. destruct (includes items x); naive_solver.
Qed.

Lemma inherited_proto : JsObject.inherited "__proto__" = true.
Proof. reflexivity. Qed.

Lemma write_set o k v :
  k ≠ "__proto__" → JsObject.write o k v = JsObject.set o k v.
Proof. intros H. unfold JsObject.write. by rewrite decide_False. Qed.

Lemma get_write_eq o k v :
  k ≠ "__proto__" → JsObject.get (JsObject.write o k v) k = Some v.
Proof. intros H. rewrite write_set by done. apply get_set_eq. Qed.

Lemma get_write_ne o k k' v :
  k ≠ k' → JsObject.get (JsObject.write o k v) k' = JsObject.get o k'.
Proof.
  intros H. unfold JsObject.write. case_decide; [done|]. by apply get_set_ne.
Qed.

Lemma write_keys_NoDup o k v : NoDup o.*1 → NoDup (JsObject.write o k v).*1.
Proof.
  intros H. unfold JsObject.write. case_decide; [done|]. by apply set_keys_NoDup.
Qed.

Lemma write_values_elem o k v x :
  x ∈ (JsObject.write o k v).*2 → x = v ∨ x ∈ o.*2.
Proof.
  unfold JsObject.write. case_decide; [by right|]. apply set_values_elem.
Qed.

Lemma write_values_NoDup o k v :
  NoDup o.*2 → v ∉ o.*2 → NoDup (JsObject.write o k v).*2.
Proof.
  intros H1 H2. unfold JsObject.write. case_decide; [done|].
  by apply set_values_NoDup.
Qed.

Lemma write_keys_elem o k v n :
  n ∈ (JsObject.write o k v).*1 ↔ n ∈ o.*1 ∨ (n = k ∧ k ≠ "__proto__").
Proof.
  unfold JsObject.write. case_decide as Hk.
  - split; [by left|]. intros [?|[_ ?]]; done.
  - rewrite set_keys. destruct (JsObject.get o k) as [v0|] eqn:Hget.
    + split; [by left|]. intros [? | [-> _]]; [done|].
      apply get_Some_elem in Hget. apply list_elem_of_fmap. by exists (k, v0).
    + rewrite elem_of_app, list_elem_of_singleton. split.
      * intros [? | ->]; [by left | by right].
      * intros [? | [-> _]]; [by left | by right].
Qed.

(** What the test [!o[k]] sees. *)
Lemma falsy_read o k :
  falsy (JsObject.read o k) = true
  ↔ JsObject.get o k = Some 0
    ∨ (JsObject.get o k = None ∧ JsObject.inherited k = false).
Proof.
  unfold JsObject.read. destruct (JsObject.get o k) as [n|]; simpl.
  - rewrite Z.eqb_eq. split.
    + intros ->. by left.
    + intros [[= ->]|[? _]]; done.
  - destruct (JsObject.inherited k); simpl.
    + split; [done|]. intros [?|[_ ?]]; done.
    + split; [|done]. intros _. by right.
Qed.

Lemma falsy_read_truthy o k v :
  JsObject.get o k = Some v → v ≠ 0 → falsy (JsObject.read o k) = false.
Proof.
  intros Hget Hv. unfold JsObject.read. rewrite Hget. simpl.
  by apply Z.eqb_neq.
Qed.

(** A falsy read never concerns [__proto__] unless it is an own property. *)
Lemma falsy_read_name o k :
  falsy (JsObject.read o k) = true → "__proto__" ∉ o.*1 → k ≠ "__proto__".
Proof.
  intros Hf Hno ->. apply falsy_read in Hf as [Hget|[_ Hinh]]; [|done].
  apply get_Some_elem in Hget. apply Hno. apply list_elem_of_fmap.
  by exists ("__proto__", 0).
Qed.

End ObjectFacts.

(** ** The probing loop *)

Section ProbeFacts.

Implicit Types (items : list Z) (cur v : Z).

Lemma do_while_spec items cur v :
  do_while items cur v →
  (cur < v) ∧ (v ∉ items) ∧ (∀ c, cur < c → c < v → c ∈ items).
Proof.
  induction 1 as [cur Hout|cur v Hin _ (Hlt & Hv & Hbelow)].
  - split_and!; [lia | by apply includes_false | intros; lia].
  - split_and!; [lia | done |].
    intros c Hc1 Hc2. destruct (decide (c = cur + 1)) as [->|Hne].
    + by apply includes_spec.
    + apply Hbelow; lia.
Qed.

Lemma do_while_det items cur v1 v2 :
  do_while items cur v1 → do_while items cur v2 → v1 = v2.
Proof.
  intros H1. revert v2.
  induction H1 as [cur Hout|cur v Hin _ IH]; intros v2 H2; inversion H2; subst;
    try congruence.
  by apply IH.
Qed.

Lemma above_shrinks items cur :
  Nat.le (length (filter (λ x, cur + 1 < x) items))
         (length (filter (λ x, cur < x) items))
  ∧ (cur + 1 ∈ items →
     Nat.lt (length (filter (λ x, cur + 1 < x) items))
            (length (filter (λ x, cur < x) items))).
Proof.
  induction items as [|x items [IH1 IH2]]; simpl.
  - split; [done | intros H; by apply elem_of_nil in H].
  - rewrite !filter_cons.
    split.
    + repeat case_decide; simpl; lia.
    + intros Hin. apply elem_of_cons in Hin as [<-|Hin].
      * rewrite decide_False by lia. rewrite decide_True by lia. simpl. lia.
      * specialize (IH2 Hin). repeat case_decide; simpl; lia.
Qed.

(** The turns granted to [probe] suffice: it returns what the loop does. *)
Lemma probe_do_while turns items cur :
  Nat.le (length (filter (λ x, cur < x) items)) turns →
  do_while items cur (probe turns items cur).
Proof.
  revert cur. induction turns as [|turns IH]; intros cur Hlen; simpl.
  - apply do_while_exit. apply includes_false. intros Hin.
    assert (cur + 1 ∈ filter (λ x, cur < x) items) as Hf
      by (apply list_elem_of_filter; split; [lia | done]).
    destruct (filter (λ x, cur < x) items); [by apply elem_of_nil in Hf|].
    simpl in Hlen. lia.
  - destruct (includes items (cur + 1)) eqn:Hinc.
    + apply do_while_again; [done|]. apply IH.
      apply includes_spec in Hinc.
      destruct (above_shrinks items cur) as [_ Hlt]. specialize (Hlt Hinc). lia.
    + by apply do_while_exit.
Qed.

Lemma newCodepoint_do_while st :
  do_while (JsObject.values (table st)) (currentCodepoint st) (newCodepoint st).1.
Proof.
  unfold newCodepoint. simpl. apply probe_do_while. apply length_filter.
Qed.

Lemma newCodepoint_fresh st :
  let c := fst (newCodepoint st) in
  (currentCodepoint st < c)
  ∧ (c ∉ JsObject.values (table st))
  ∧ (c ∉ (table st).*2).
Proof.
  destruct (do_while_spec _ _ _ (newCodepoint_do_while st)) as (Hlt & Hv & _).
  split_and!; [done..|]. by rewrite <- values_Permutation.
Qed.

Lemma newCodepoint_state st :
  table (newCodepoint st).2 = table st
  ∧ names (newCodepoint st).2 = names st
  ∧ currentCodepoint (newCodepoint st).2 = (newCodepoint st).1.
Proof. done. Qed.

End ProbeFacts.

(** ** Seeding the table from the overrides *)

Section SeedFacts.

Implicit Types (o l : JsObject.t).

Let put := λ (o : JsObject.t) (p : string * Z), JsObject.write o p.1 p.2.

Lemma foldl_set_keys_NoDup o l : NoDup o.*1 → NoDup (foldl put o l).*1.
Proof.
  revert o. induction l as [|[k v] l IH]; intros o Hnd; simpl; [done|].
  apply IH. by apply write_keys_NoDup.
Qed.

Lemma foldl_set_keys_elem o l n :
  n ∈ (foldl put o l).*1 ↔ n ∈ o.*1 ∨ (n ∈ l.*1 ∧ n ≠ "__proto__").
Proof.
  revert o. induction l as [|[k v] l IH]; intros o; csimpl.
  - rewrite elem_of_nil. tauto.
  - rewrite IH. unfold put. cbn [fst snd].
    rewrite write_keys_elem, elem_of_cons. split.
    + intros [[?|[-> ?]]|[? ?]]; auto.
    + intros [?|[[->|?] ?]]; auto.
Qed.

(** Distinct override names are stored as they come, except [__proto__]. *)
Lemma foldl_set_fresh o l :
  NoDup (o ++ l).*1 →
  foldl put o l = o ++ filter (λ p, p.1 ≠ "__proto__") l.
Proof.
  revert o. induction l as [|[k v] l IH]; intros o Hnd; simpl.
  - by rewrite app_nil_r.
  - rewrite filter_cons. unfold put at 2. cbn [fst snd].
    unfold JsObject.write. destruct (decide (k = "__proto__")) as [->|Hk].
    + rewrite decide_False by (intros H; by apply H). apply IH.
      rewrite fmap_app in *. csimpl in Hnd.
      apply NoDup_app in Hnd as (Ho & Hdisj & Hl).
      apply NoDup_cons in Hl as [_ Hl]. apply NoDup_app. split_and!; [done| |done].
      intros x Hx Hxl. apply (Hdisj x Hx). by apply list_elem_of_further.
    + rewrite decide_True by done. rewrite set_absent.
      * rewrite IH; rewrite <- app_assoc; done.
      * apply get_None. rewrite fmap_app in Hnd. csimpl in Hnd.
        apply NoDup_app in Hnd as (_ & Hdisj & _).
        intros Hin. apply (Hdisj k Hin). apply list_elem_of_here.
Qed.

Lemma foldl_set_values_elem o l x :
  x ∈ (foldl put o l).*2 → x ∈ o.*2 ∨ x ∈ l.*2.
Proof.
  revert o. induction l as [|[k v] l IH]; intros o; csimpl; [by left|].
  intros Hx. apply IH in Hx as [Hx|Hx]; [|right; by apply list_elem_of_further].
  unfold put in Hx. cbn [fst snd] in Hx.
  apply write_values_elem in Hx as [->|Hx].
  - right. apply list_elem_of_here.
  - by left.
Qed.

Lemma foldl_set_values_NoDup o l :
  NoDup (o.*2 ++ l.*2) → NoDup (foldl put o l).*2.
Proof.
  revert o. induction l as [|[k v] l IH]; intros o Hnd; simpl.
  - by rewrite app_nil_r in Hnd.
  - csimpl in Hnd. apply IH. unfold put. simpl.
    apply NoDup_app in Hnd as (Ho & Hdisj & Hl).
    apply NoDup_cons in Hl as [Hv Hl].
    assert (v ∉ o.*2) as Hvo
      by (intros Hin; apply (Hdisj v Hin); apply list_elem_of_here).
    apply NoDup_app. split_and!; [by apply write_values_NoDup| |done].
    intros x Hx Hxl. apply write_values_elem in Hx as [->|Hx]; [done|].
    apply (Hdisj x Hx). by apply list_elem_of_further.
Qed.

Lemma foldl_set_length o l :
  Nat.le (length (foldl put o l)) (length o + length l).
Proof.
  revert o. induction l as [|[k v] l IH]; intros o; simpl; [lia|].
  etrans; [apply IH|]. unfold put. cbn [fst snd].
  assert (Nat.le (length (JsObject.write o k v)) (S (length o))) as Hle.
  { unfold JsObject.write. case_decide; [lia|].
    clear. induction o as [|[k' v'] o IHo]; simpl; [lia|].
    case_decide; simpl; lia. }
  lia.
Qed.

Lemma seed_keys_NoDup l : NoDup (seed l).*1.
Proof. apply foldl_set_keys_NoDup. apply NoDup_nil_2. Qed.

Lemma seed_values_NoDup l :
  NoDup (JsObject.values l) → NoDup (seed l).*2.
Proof. intros H. apply foldl_set_values_NoDup. by simpl. Qed.

Lemma seed_keys_elem l n :
  n ∈ (seed l).*1 ↔ n ∈ l.*1 ∧ n ≠ "__proto__".
Proof.
  unfold seed. fold put. rewrite foldl_set_keys_elem.
  fold (JsObject.keys l). rewrite keys_Permutation. csimpl.
  rewrite elem_of_nil. tauto.
Qed.

Lemma seed_values_elem l x : x ∈ (seed l).*2 → x ∈ l.*2.
Proof.
  unfold seed. fold put. intros Hx.
  apply foldl_set_values_elem in Hx as [Hx|Hx]; [by apply elem_of_nil in Hx|].
  fold (JsObject.values l) in Hx. by rewrite values_Permutation in Hx.
Qed.

Lemma seed_length l : Nat.le (length (seed l)) (length l).
Proof.
  unfold seed. fold put. etrans; [apply foldl_set_length|].
  simpl. by rewrite entries_Permutation.
Qed.

(** The table starts as the overrides, in their enumeration order, without
    [__proto__]. *)
Lemma seed_entries l :
  NoDup l.*1 →
  seed l = filter (λ p, p.1 ≠ "__proto__") (JsObject.entries l).
Proof.
  intros H. unfold seed. apply (foldl_set_fresh []). simpl.
  by rewrite entries_Permutation.
Qed.

Lemma seed_get l k v :
  NoDup l.*1 → (k, v) ∈ l → k ≠ "__proto__" →
  JsObject.get (seed l) k = Some v.
Proof.
  intros Hnd Hin Hk. apply elem_get_Some; [apply seed_keys_NoDup|].
  rewrite seed_entries by done. apply list_elem_of_filter.
  split; [done|]. by rewrite entries_Permutation.
Qed.

End SeedFacts.

(** ** Visiting the files *)

Section AllocationFacts.

Variable path_name : string → string.
Variable options : GenerateOptions.

Let resolve := resolve_name path_name options.
Let visit := assign_file path_name options.

Lemma assign_file_table st file :
  table (visit st file) =
  if falsy (JsObject.read (table st) (resolve file))
  then JsObject.write (table st) (resolve file) (newCodepoint st).1
  else table st.
Proof.
  unfold visit, assign_file. fold (resolve file).
  by destruct (falsy (JsObject.read (table st) (resolve file))).
Qed.

Lemma assign_file_cursor st file :
  currentCodepoint (visit st file) =
  if falsy (JsObject.read (table st) (resolve file))
  then (newCodepoint st).1
  else currentCodepoint st.
Proof.
  unfold visit, assign_file. fold (resolve file).
  by destruct (falsy (JsObject.read (table st) (resolve file))).
Qed.

Lemma assign_file_names st file :
  names (visit st file) = <[file := resolve file]> (names st).
Proof.
  unfold visit, assign_file. fold (resolve file).
  by destruct (falsy (JsObject.read (table st) (resolve file))).
Qed.

Lemma assign_file_cursor_le st file :
  currentCodepoint st ≤ currentCodepoint (visit st file).
Proof.
  rewrite assign_file_cursor.
  destruct (falsy _); [|lia].
  destruct (newCodepoint_fresh st) as (? & _). lia.
Qed.


Lemma assign_file_values_NoDup st file :
  NoDup (table st).*2 → NoDup (table (visit st file)).*2.
Proof.
  intros H. rewrite assign_file_table.
  destruct (falsy _); [|done].
  apply write_values_NoDup; [done|]. apply newCodepoint_fresh.
Qed.

(** A name the file does not resolve to is left alone. *)
Lemma assign_file_other st file n :
  resolve file ≠ n →
  JsObject.get (table (visit st file)) n = JsObject.get (table st) n.
Proof.
  intros Hne. rewrite assign_file_table.
  destruct (falsy _); [by apply get_write_ne | done].
Qed.

(** A non-zero codepoint is never replaced. *)
Lemma assign_file_truthy_kept st file n v :
  JsObject.get (table st) n = Some v → v ≠ 0 →
  JsObject.get (table (visit st file)) n = Some v.
Proof.
  intros Hget Hv. destruct (decide (resolve file = n)) as [Heq|Hne].
  - rewrite assign_file_table, Heq. by rewrite (falsy_read_truthy _ _ v).
  - by rewrite assign_file_other.
Qed.

Lemma assign_file_key_kept st file n :
  is_Some (JsObject.get (table st) n) →
  is_Some (JsObject.get (table (visit st file)) n).
Proof.
  intros Hn. rewrite assign_file_table. destruct (falsy _); [|done].
  unfold JsObject.write. case_decide; [done|].
  destruct (decide (resolve file = n)) as [->|Hne].
  - rewrite get_set_eq. by eexists.
  - by rewrite get_set_ne.
Qed.

(** After the visit an ordinary name has a codepoint. *)
Lemma assign_file_visited st file :
  ordinary (resolve file) →
  is_Some (JsObject.get (table (visit st file)) (resolve file)).
Proof.
  intros Hord. rewrite assign_file_table.
  destruct (falsy (JsObject.read (table st) (resolve file))) eqn:Hf.
  - rewrite get_write_eq; [by eexists|].
    intros Heq. unfold ordinary in Hord. by rewrite Heq in Hord.
  - unfold JsObject.read in Hf.
    destruct (JsObject.get (table st) (resolve file)); [by eexists|].
    unfold ordinary in Hord. by rewrite Hord in Hf.
Qed.

(** The name of an inherited member gets no entry of its own. *)
Lemma assign_file_member st file :
  JsObject.get (table st) (resolve file) = None →
  JsObject.inherited (resolve file) = true →
  visit st file
  = {| table := table st; names := <[file := resolve file]> (names st);
       currentCodepoint := currentCodepoint st |}.
Proof.
  intros Hget Hinh. unfold visit, assign_file. fold (resolve file).
  unfold JsObject.read. by rewrite Hget, Hinh.
Qed.

Lemma assign_file_no_proto st file :
  "__proto__" ∉ (table st).*1 → "__proto__" ∉ (table (visit st file)).*1.
Proof.
  intros H. rewrite assign_file_table. destruct (falsy _); [|done].
  rewrite write_keys_elem. intros [?|[<- ?]]; done.
Qed.

(** *** The whole list *)

Lemma visit_all_cursor_le st fs :
  currentCodepoint st ≤ currentCodepoint (foldl visit st fs).
Proof.
  revert st. induction fs as [|f fs IH]; intros st; simpl; [lia|].
  etrans; [apply (assign_file_cursor_le st f) | apply IH].
Qed.


Lemma visit_all_values_NoDup st fs :
  NoDup (table st).*2 → NoDup (table (foldl visit st fs)).*2.
Proof.
  revert st. induction fs as [|f fs IH]; intros st H; simpl; [done|].
  apply IH. by apply assign_file_values_NoDup.
Qed.

Lemma visit_all_other st fs n :
  Forall (λ f, resolve f ≠ n) fs →
  JsObject.get (table (foldl visit st fs)) n = JsObject.get (table st) n.
Proof.
  intros Hall. revert st.
  induction Hall as [|f fs Hf _ IH]; intros st; simpl; [done|].
  rewrite IH. by apply assign_file_other.
Qed.

Lemma visit_all_truthy_kept st fs n v :
  JsObject.get (table st) n = Some v → v ≠ 0 →
  JsObject.get (table (foldl visit st fs)) n = Some v.
Proof.
  revert st. induction fs as [|f fs IH]; intros st Hget Hv; simpl; [done|].
  apply IH; [|done]. by apply assign_file_truthy_kept.
Qed.

Lemma visit_all_key_kept st fs n :
  is_Some (JsObject.get (table st) n) →
  is_Some (JsObject.get (table (foldl visit st fs)) n).
Proof.
  revert st. induction fs as [|f fs IH]; intros st Hn; simpl; [done|].
  apply IH. by apply assign_file_key_kept.
Qed.

Lemma visit_all_visited st fs f :
  f ∈ fs → ordinary (resolve f) →
  is_Some (JsObject.get (table (foldl visit st fs)) (resolve f)).
Proof.
  revert st. induction fs as [|f' fs IH]; intros st Hin Hord; simpl.
  - by apply elem_of_nil in Hin.
  - apply elem_of_cons in Hin as [->|Hin]; [|by apply IH].
    by apply visit_all_key_kept, assign_file_visited.
Qed.

Lemma visit_all_no_proto st fs :
  "__proto__" ∉ (table st).*1 → "__proto__" ∉ (table (foldl visit st fs)).*1.
Proof.
  revert st. induction fs as [|f fs IH]; intros st H; simpl; [done|].
  apply IH. by apply assign_file_no_proto.
Qed.

Lemma visit_all_names_kept st fs f :
  names st !! f = Some (resolve f) →
  names (foldl visit st fs) !! f = Some (resolve f).
Proof.
  revert st. induction fs as [|f' fs IH]; intros st Hf; simpl; [done|].
  apply IH. rewrite assign_file_names.
  destruct (decide (f' = f)) as [->|Hne].
  - by rewrite lookup_insert_eq.
  - by rewrite lookup_insert_ne.
Qed.

Lemma visit_all_names st fs f :
  f ∈ fs → names (foldl visit st fs) !! f = Some (resolve f).
Proof.
  revert st. induction fs as [|f' fs IH]; intros st Hin; simpl.
  - by apply elem_of_nil in Hin.
  - apply elem_of_cons in Hin as [->|Hin]; [|by apply IH].
    apply visit_all_names_kept. rewrite assign_file_names.
    by rewrite lookup_insert_eq.
Qed.

End AllocationFacts.

(** ** The automatically assigned codepoints *)

Section TraceFacts.

Variable path_name : string → string.
Variable options : GenerateOptions.

Let resolve := resolve_name path_name options.
Let visit := assign_file path_name options.
Let trace := auto_assigned path_name options.

Lemma trace_cons st f fs :
  trace st (f :: fs) =
  (if falsy (JsObject.read (table st) (resolve f)) then
     [{| assigned_name := resolve f;
         assigned_value := (newCodepoint st).1;
         table_before := table st |}]
   else []) ++ trace (visit st f) fs.
Proof. done. Qed.

Lemma trace_above st fs :
  Forall (λ a, currentCodepoint st < assigned_value a) (trace st fs).
Proof.
  revert st. induction fs as [|f fs IH]; intros st; [constructor|].
  rewrite trace_cons. apply Forall_app. split.
  - destruct (falsy _); [|constructor].
    apply Forall_singleton. apply newCodepoint_fresh.
  - eapply Forall_impl; [apply IH|]. intros a Ha. cbv beta in Ha.
    pose proof (assign_file_cursor_le path_name options st f) as Hle.
    fold visit in Hle. lia.
Qed.

Lemma trace_increasing st fs :
  StronglySorted Z.lt (assigned_value <$> trace st fs).
Proof.
  revert st. induction fs as [|f fs IH]; intros st; [constructor|].
  rewrite trace_cons.
  destruct (falsy (JsObject.read (table st) (resolve f))) eqn:Hf; csimpl.
  - constructor; [apply IH|].
    apply Forall_fmap. eapply Forall_impl; [apply trace_above|].
    intros a Ha. cbv beta in *.
    pose proof (assign_file_cursor path_name options st f) as Hc.
    fold resolve visit in Hc. rewrite Hf in Hc. rewrite Hc in Ha. exact Ha.
  - apply IH.
Qed.

Lemma trace_fresh st fs :
  Forall (λ a, assigned_value a ∉ JsObject.values (table_before a))
         (trace st fs).
Proof.
  revert st. induction fs as [|f fs IH]; intros st; [constructor|].
  rewrite trace_cons. apply Forall_app. split; [|apply IH].
  destruct (falsy _); [|constructor].
  apply Forall_singleton. apply newCodepoint_fresh.
Qed.

(** A non-zero codepoint in the table is in the table at every later
    assignment, so it is never handed out again. *)
Lemma trace_avoids_truthy st fs n v :
  JsObject.get (table st) n = Some v → v ≠ 0 →
  v ∉ assigned_value <$> trace st fs.
Proof.
  revert st. induction fs as [|f fs IH]; intros st Hget Hv.
  - apply not_elem_of_nil.
  - rewrite trace_cons, fmap_app. apply not_elem_of_app. split.
    + destruct (falsy _); [|apply not_elem_of_nil].
      csimpl. intros Hin. apply list_elem_of_singleton in Hin. subst v.
      destruct (newCodepoint_fresh st) as (_ & _ & Hfresh).
      apply Hfresh. apply list_elem_of_fmap.
      eexists (n, _). split; [|apply get_Some_elem; exact Hget]. done.
    + apply IH; [|done]. by apply assign_file_truthy_kept.
Qed.

End TraceFacts.

Lemma StronglySorted_lt_le (l : list Z) :
  StronglySorted Z.lt l → StronglySorted Z.le l.
Proof.
  induction 1 as [|x l _ IH Hall]; constructor; [done|].
  eapply Forall_impl; [exact Hall|]. intros y Hy. simpl in Hy. lia.
Qed.

Lemma NoDup_values_key_eq (o : JsObject.t) n1 n2 v :
  NoDup o.*2 → (n1, v) ∈ o → (n2, v) ∈ o → n1 = n2.
Proof.
  induction o as [|[k w] o IH]; csimpl.
  - intros _ H. by apply elem_of_nil in H.
  - rewrite NoDup_cons. intros [Hw Hnd] H1 H2.
    apply elem_of_cons in H1 as [H1|H1];
      apply elem_of_cons in H2 as [H2|H2]; simplify_eq; [done| | |by apply IH].
    + exfalso. apply Hw. apply list_elem_of_fmap. by exists (n2, w).
    + exfalso. apply Hw. apply list_elem_of_fmap. by exists (n1, w).
Qed.




(** ** Properties of the codepoint table *)

(** C1, as stated, fails: the overrides are copied into the table as they
    are, so two names overridden to the same codepoint share it. *)
Lemma duplicate_overrides_share_codepoint :
  let tbl := table (assign_codepoints posix_name
               (request [] None (Some [("a", 65); ("b", 65)]) None)) in
  JsObject.get tbl "a" = Some 65 ∧ JsObject.get tbl "b" = Some 65 ∧ "a" ≠ "b".
Proof. split_and!; [reflexivity | reflexivity | discriminate]. Qed.

(** C1 (amended): when the override map gives pairwise distinct codepoints,
    the final table has no duplicate codepoint values: no two distinct names
    map to the same codepoint. *)
Theorem table_values_unique (path_name : string → string)
    (options : GenerateOptions) :
  NoDup (JsObject.values (default [] (codepoints options))) →
  let tbl := table (assign_codepoints path_name options) in
  NoDup (JsObject.values tbl)
  ∧ (∀ n1 n2 v,
       JsObject.get tbl n1 = Some v → JsObject.get tbl n2 = Some v → n1 = n2).
Proof.
  intros Hovr tbl.
  assert (NoDup tbl.*2) as Hnd.
  { apply visit_all_values_NoDup. simpl. by apply seed_values_NoDup. }
  split; [by rewrite values_Permutation|].
  intros n1 n2 v H1 H2.
  eapply NoDup_values_key_eq; [exact Hnd|by apply get_Some_elem..].
Qed.

Lemma table_values_unique_witness :
  NoDup (JsObject.values [("five", 65); ("b", 0xf102)])
  ∧ NoDup (JsObject.values (table (assign_codepoints posix_name
       (request ["a.svg"; "b.svg"; "five.svg"] None
          (Some [("five", 65); ("b", 0xf102)]) None)))).
Proof.
  assert (NoDup (JsObject.values [("five", 65); ("b", 0xf102)])) as H.
  { apply (bool_decide_unpack _). vm_compute. reflexivity. }
  split; [exact H|].
  exact (proj1 (table_values_unique posix_name
    (request ["a.svg"; "b.svg"; "five.svg"] None
       (Some [("five", 65); ("b", 0xf102)]) None) H)).
Defined.

(** C2, at the failing input: the override [a := 0] is falsy for the test
    [!codepoints[name]], so visiting [a.svg] replaces it by an
    auto-assigned codepoint. *)
Theorem override_zero_is_reassigned :
  let options := request ["a.svg"] None (Some [("a", 0)]) None in
  JsObject.get (default [] (codepoints options)) "a" = Some 0
  ∧ table (assign_codepoints posix_name options) = [("a", 0xf102)].
Proof. split; reflexivity. Qed.

(** Overrides with a non-zero codepoint do take priority. *)
Lemma override_kept (path_name : string → string) (options : GenerateOptions)
    (n : string) (v : Z) :
  NoDup (default [] (codepoints options)).*1 →
  (n, v) ∈ default [] (codepoints options) → n ≠ "__proto__" → v ≠ 0 →
  JsObject.get (table (assign_codepoints path_name options)) n = Some v.
Proof.
  intros Hnd Hin Hn Hv. apply visit_all_truthy_kept; [|done].
  simpl. by apply seed_get.
Qed.

(** C3: from [0xf101], the names a, b, c with no overrides get [0xf102],
    [0xf103], [0xf104]; the cursor is incremented before each assignment, so
    the starting value is not auto-assigned: not in this request, and in no
    request whose cursor stays within the safe integers. *)
Theorem auto_assignment_from_start :
  table (assign_codepoints posix_name
    (request ["a.svg"; "b.svg"; "c.svg"] (Some 0xf101) None None))
  = [("a", 0xf102); ("b", 0xf103); ("c", 0xf104)]
  ∧ auto_values posix_name
      (request ["a.svg"; "b.svg"; "c.svg"] (Some 0xf101) None None)
    = [0xf102; 0xf103; 0xf104]
  ∧ ∀ (path_name : string → string) (options : GenerateOptions),
      within_safe_integers options →
      Forall (λ v, default DEFAULT_START_CODEPOINT (startCodepoint options) < v)
             (auto_values path_name options).
Proof.
  split_and!; [reflexivity | reflexivity |]. intros path_name options _.
  unfold auto_values. apply Forall_fmap.
  apply (trace_above path_name options (initial options)).
Qed.

Lemma auto_assignment_from_start_witness :
  within_safe_integers
    (request ["a.svg"; "b.svg"] (Some 0xf101) (Some [("a", 0xf102)]) None)
  ∧ Forall (λ v, default DEFAULT_START_CODEPOINT
                   (startCodepoint
                      (request ["a.svg"; "b.svg"] (Some 0xf101)
                         (Some [("a", 0xf102)]) None)) < v)
      (auto_values posix_name
         (request ["a.svg"; "b.svg"] (Some 0xf101) (Some [("a", 0xf102)]) None)).
Proof.
  assert (within_safe_integers
    (request ["a.svg"; "b.svg"] (Some 0xf101) (Some [("a", 0xf102)]) None))
    as H by (split; vm_compute; reflexivity).
  split; [exact H|].
  exact (proj2 (proj2 auto_assignment_from_start) posix_name
    (request ["a.svg"; "b.svg"] (Some 0xf101) (Some [("a", 0xf102)]) None) H).
Defined.

(** C4: the auto-assigned codepoints are non-decreasing in file order, and
    none of them equals a value that is in the table when it is assigned;
    in particular a non-zero override is never handed out.  With the
    override [a := 0xf102] and start [0xf101], [b] gets [0xf103]. *)
Theorem auto_assigned_monotone_and_fresh (path_name : string → string)
    (options : GenerateOptions) :
  StronglySorted Z.le (auto_values path_name options)
  ∧ Forall (λ a, assigned_value a ∉ JsObject.values (table_before a))
      (auto_assigned path_name options (initial options) (files options))
  ∧ Forall (λ p, p.2 = 0 ∨ p.2 ∉ auto_values path_name options)
      (table (initial options))
  ∧ table (assign_codepoints posix_name
      (request ["a.svg"; "b.svg"] (Some 0xf101) (Some [("a", 0xf102)]) None))
    = [("a", 0xf102); ("b", 0xf103)].
Proof.
  split_and!.
  - apply StronglySorted_lt_le, trace_increasing.
  - apply trace_fresh.
  - apply Forall_forall. intros [n v] Hin. simpl.
    destruct (decide (v = 0)) as [->|Hv]; [by left | right].
    apply (trace_avoids_truthy path_name options (initial options) _ n v);
      [|done].
    apply elem_get_Some; [apply seed_keys_NoDup | done].
  - reflexivity.
Qed.

(** C5, at the failing input: [x.svg] and [y.svg] are both renamed to
    [constructor]; the test [!codepoints[name]] reads the member that the
    table inherits under that name, which is truthy, so no codepoint is
    assigned and the table has no entry keyed [constructor] (renamed to
    [icon] they share the one entry [icon]). *)
Theorem renamed_to_inherited_name_has_no_entry :
  resolve_name posix_name
    (request ["x.svg"; "y.svg"] None None
       (Some {["x" := "constructor"; "y" := "constructor"]})) "x.svg"
  = "constructor"
  ∧ resolve_name posix_name
      (request ["x.svg"; "y.svg"] None None
         (Some {["x" := "constructor"; "y" := "constructor"]})) "y.svg"
    = "constructor"
  ∧ table (assign_codepoints posix_name
      (request ["x.svg"; "y.svg"] None None
         (Some {["x" := "constructor"; "y" := "constructor"]})))
    = []
  ∧ table (assign_codepoints posix_name
      (request ["x.svg"; "y.svg"] None None
         (Some {["x" := "icon"; "y" := "icon"]})))
    = [("icon", 0xf102)].
Proof. split_and!; vm_compute; reflexivity. Qed.

(** ** The font-face declaration *)






(** ** Hexadecimal rendering *)

Lemma lower_hex_digits :
  Forall lower_hex (list_ascii_of_string "0123456789abcdef").
Proof. apply Forall_forall. intros c Hc. exact Hc. Qed.

(** The digits of a positive number: lowercase, most significant first,
    and the first one is not a zero. *)
Lemma of_pos_shape (p : positive) (rest : string) :
  ∃ c s, HexString.Raw.of_pos p rest = String c (s +:+ rest)
         ∧ c ≠ "0"%char ∧ lower_hex c
         ∧ Forall lower_hex (list_ascii_of_string s).
Proof.
  revert p rest. fix IH 1. intros p rest.
  assert (∀ d p', lower_hex d →
    ∃ c s, HexString.Raw.of_pos p' (String d rest) = String c (s +:+ rest)
           ∧ c ≠ "0"%char ∧ lower_hex c
           ∧ Forall lower_hex (list_ascii_of_string s)) as Hstep.
  { intros d p' Hd. 
    destruct (IH p' (String d rest)) as (c & s & Heq & Hc & Hl & Hs).
    exists c, (s +:+ String d EmptyString). split_and!; [|done..|].
    - rewrite Heq. f_equal. clear. induction s as [|a s IHs]; [done|].
      change (String a (s +:+ String d rest)
              = String a ((s +:+ String d EmptyString) +:+ rest)).
      by rewrite IHs.
    - clear -Hs Hd. induction s as [|a s IHs]; simpl in *.
      + by constructor.
      + apply Forall_cons in Hs as [Ha Hs]. constructor; auto. }
  assert (∀ d, d ≠ "0"%char → lower_hex d →
    ∃ c s, String d rest = String c (s +:+ rest)
           ∧ c ≠ "0"%char ∧ lower_hex c
           ∧ Forall lower_hex (list_ascii_of_string s)) as Hbase.
  { intros d Hd Hl. exists d, EmptyString. split_and!; [done..|constructor]. }
  pose proof lower_hex_digits as Hdig.
  repeat (apply Forall_cons in Hdig as [? Hdig]).
  do 4 try destruct p as [p|p|]; simpl;
    first [ by apply Hstep | by apply Hbase ].
Qed.

Lemma toString16_digits (n : N) :
  let h := toString16 (Z.of_N n) in
  HexString.Raw.to_N h 0%N = n
  ∧ Forall lower_hex (list_ascii_of_string h)
  ∧ (h = "0" ∨ ∃ c s, h = String c s ∧ c ≠ "0"%char).
Proof.
  destruct n as [|p]; simpl.
  - split_and!; [done | | by left].
    constructor; [|constructor]. unfold lower_hex. simpl. set_solver.
  - split_and!.
    + apply (HexString.Raw.to_N_of_pos p EmptyString 0%N).
    + destruct (of_pos_shape p EmptyString) as (c & s & -> & _ & Hc & Hs).
      simpl. constructor; [done|].
      clear -Hs. induction s as [|a s IH]; simpl in *; [constructor|].
      apply Forall_cons in Hs as [Ha Hs]. constructor; auto.
    + right. destruct (of_pos_shape p EmptyString) as (c & s & -> & Hc & _).
      by exists c, (s +:+ EmptyString).
Qed.

(** ** The per-icon rules *)

#[local] Instance index_le_trans : Transitive JsObject.index_le.
Proof. intros a b c. unfold JsObject.index_le. lia. Qed.

#[local] Instance index_le_total : Total JsObject.index_le.
Proof. intros a b. unfold JsObject.index_le. lia. Qed.

Lemma indexed_spec (o : JsObject.t) :
  Forall (λ ip, JsObject.array_index ip.2.1 = Some ip.1 ∧ ip.2 ∈ o)
         (JsObject.indexed o).
Proof.
  unfold JsObject.indexed. induction o as [|[k v] o IH]; csimpl; [constructor|].
  assert (Forall (λ ip : N * (string * Z),
            JsObject.array_index ip.2.1 = Some ip.1 ∧ ip.2 ∈ (k, v) :: o)
          (omap (λ p : string * Z,
             match JsObject.array_index p.1 with
             | Some i => Some (i, p)
             | None => None
             end) o)) as Hrest.
  { eapply Forall_impl; [exact IH|]. intros ip [? ?].
    split; [done | by apply list_elem_of_further]. }
  destruct (JsObject.array_index k) eqn:Hk; simpl; [|done].
  constructor; [|done]. simpl. split; [done | apply list_elem_of_here].
Qed.

(** C7, as stated, fails on the order: the names [1] and [0] are array
    indices, so the rule of [0] comes first although [1] was inserted
    first. *)
Lemma index_names_leave_insertion_order :
  let options := request ["1.svg"; "0.svg"] None None None in
  let tbl := table (assign_codepoints posix_name options) in
  tbl = [("1", 0xf102); ("0", 0xf103)]
  ∧ icon_rules options tbl
    = [icon_rule options ("0", 0xf103); icon_rule options ("1", 0xf102)]
  ∧ icon_rules options tbl ≠ icon_rule options <$> tbl.
Proof.
  split_and!; [reflexivity | reflexivity |].
  intros H. vm_compute in H. discriminate H.
Qed.

(** C7 (amended): the stylesheet has exactly one per-icon rule for each
    codepoint-table entry, of the shape
    [<selector>.<classPrefix><name>:before { content: "\<hex>"; }] with the
    codepoint in lowercase hexadecimal without leading zeros, and the rules
    appear in the table's enumeration order: names that are array indices
    first, in ascending numeric order, then the other names in insertion
    order (which is plain insertion order when no name is an array
    index). *)
Theorem icon_rules_follow_enumeration (options : GenerateOptions)
    (tbl : JsObject.t) :
  generateCssContent options tbl
  = String.concat newline
      (font_face options :: base_rule options
       :: (icon_rule options <$> JsObject.entries tbl))
  ∧ icon_rules options tbl ≡ₚ icon_rule options <$> tbl
  ∧ length (icon_rules options tbl) = length tbl
  ∧ (∀ name v,
       icon_rule options (name, v)
       = selector_of options +:+ "." +:+ classPrefix_of options +:+ name
         +:+ ":before { content: " +:+ dquote +:+ backslash +:+ toString16 v
         +:+ dquote +:+ "; }")
  ∧ (∀ n : N,
       HexString.Raw.to_N (toString16 (Z.of_N n)) 0%N = n
       ∧ Forall lower_hex (list_ascii_of_string (toString16 (Z.of_N n)))
       ∧ (toString16 (Z.of_N n) = "0"
          ∨ ∃ c s, toString16 (Z.of_N n) = String c s ∧ c ≠ "0"%char))
  ∧ (∃ sorted : list (N * (string * Z)),
       JsObject.entries tbl = sorted.*2 ++ JsObject.named tbl
       ∧ sorted ≡ₚ JsObject.indexed tbl
       ∧ StronglySorted JsObject.index_le sorted
       ∧ Forall (λ ip, JsObject.array_index ip.2.1 = Some ip.1) sorted)
  ∧ (Forall (λ p, JsObject.array_index p.1 = None) tbl →
     icon_rules options tbl = icon_rule options <$> tbl).
Proof.
  split_and!.
  - reflexivity.
  - unfold icon_rules. by rewrite entries_Permutation.
  - unfold icon_rules. by rewrite length_fmap, entries_Permutation.
  - reflexivity.
  - apply toString16_digits.
  - exists (merge_sort JsObject.index_le (JsObject.indexed tbl)). split_and!.
    + reflexivity.
    + apply merge_sort_Permutation.
    + apply StronglySorted_merge_sort; apply _.
    + rewrite merge_sort_Permutation.
      eapply Forall_impl; [apply indexed_spec|]. by intros ip [? _].
  - intros Hall. unfold icon_rules. by rewrite entries_named.
Qed.

Lemma icon_rules_follow_enumeration_witness :
  Forall (λ p, JsObject.array_index p.1 = None) [("b", 0xf102); ("a", 0xf103)]
  ∧ icon_rules (request ["b.svg"; "a.svg"] None None None)
      [("b", 0xf102); ("a", 0xf103)]
    = icon_rule (request ["b.svg"; "a.svg"] None None None)
      <$> [("b", 0xf102); ("a", 0xf103)].
Proof.
  assert (Forall (λ p, JsObject.array_index p.1 = None)
            [("b", 0xf102); ("a", 0xf103)]) as H
    by (repeat constructor).
  split; [exact H|].
  exact (proj2 (proj2 (proj2 (proj2 (proj2 (proj2
    (icon_rules_follow_enumeration
       (request ["b.svg"; "a.svg"] None None None)
       [("b", 0xf102); ("a", 0xf103)])))))) H).
Defined.


(** ** Glyph records *)

Lemma glyphs_of_names (st : Allocator) (fs : list string)
    (glyphs : list Metadata.t) :
  glyphs_of st fs = Ok glyphs →
  Metadata.name <$> glyphs = (λ f, default "undefined" (names st !! f)) <$> fs.
Proof.
  revert glyphs. induction fs as [|f fs IH]; intros glyphs; simpl.
  - by intros [= <-].
  - unfold glyph_of.
    destruct (String_fromCodePoint _) as [c|e]; simpl; [|done].
    destruct (glyphs_of st fs) as [gs|e]; simpl; [|done].
    intros [= <-]. csimpl. f_equal. by apply IH.
Qed.

(** C10, at the failing input: the override map has the own keys
    [__proto__] and [ghost], neither matched by a file; [codepoints[name] =
    codepoint] stores [ghost] but, for [__proto__], runs the setter the
    table inherits, which ignores a number: that override is not in the
    final table and gets no rule; the stylesheet ends with the rule of
    [ghost]. *)
Theorem proto_override_is_dropped :
  JsObject.entries [("__proto__", 65); ("ghost", 66)]
  = [("__proto__", 65); ("ghost", 66)]
  ∧ table (assign_codepoints posix_name
      (request [] None (Some [("__proto__", 65); ("ghost", 66)]) None))
    = [("ghost", 66)]
  ∧ icon_rules
      (request [] None (Some [("__proto__", 65); ("ghost", 66)]) None)
      (table (assign_codepoints posix_name
         (request [] None (Some [("__proto__", 65); ("ghost", 66)]) None)))
    = [icon_rule
         (request [] None (Some [("__proto__", 65); ("ghost", 66)]) None)
         ("ghost", 66)]
  ∧ generateCssContent
      (request [] None (Some [("__proto__", 65); ("ghost", 66)]) None)
      (table (assign_codepoints posix_name
         (request [] None (Some [("__proto__", 65); ("ghost", 66)]) None)))
    = font_face (request [] None None None) +:+ newline
      +:+ base_rule (request [] None None None) +:+ newline
      +:+ ".icon.icon-ghost:before { content: " +:+ dquote +:+ backslash
      +:+ "42" +:+ dquote +:+ "; }".
Proof. split_and!; vm_compute; reflexivity. Qed.

(** ** The output writer *)

Section PipelineFacts.

Context {FS : Type}.
Variable path_name : string → string.
Variable path_resolve : string → string → string.
Variable existsSync : FS → string → bool.
Variable mkdirSync : FS → string → result FS.
Variable writeFileSync : FS → string → Payload → result FS.
Variable SvgIcons2Font :
  FS → string → option (SvgIcons2FontOptions * Svg2TTfOptions) →
  list Metadata.t → result string.
Variable Svg2Ttf :
  string → option (SvgIcons2FontOptions * Svg2TTfOptions) →
  result (list Byte.byte).
Variable Ttf2Woff : list Byte.byte → result (list Byte.byte).
Variable Ttf2Woff2 : list Byte.byte → result (list Byte.byte).

Variable options : GenerateOptions.
Variables css svg : string.
Variable ttf : list Byte.byte.

Let dispatch := data Ttf2Woff Ttf2Woff2 css svg ttf.
Let job := write_output path_resolve writeFileSync Ttf2Woff Ttf2Woff2
             options css svg ttf.
Let output := output_path path_resolve options.

(** The [default] branch of the switch. *)
Lemma data_unknown type :
  type ∉ KNOWN_OUTPUTS → dispatch type = Throw (Error EmptyString).
Proof.
  unfold KNOWN_OUTPUTS. rewrite !not_elem_of_cons. intros (?&?&?&?&?&_).
  unfold dispatch, data. by rewrite !decide_False.
Qed.

Lemma data_Ok type d : dispatch type = Ok d → type ∈ KNOWN_OUTPUTS.
Proof.
  intros Hd. destruct (decide (type ∈ KNOWN_OUTPUTS)) as [|Hn]; [done|].
  rewrite (data_unknown _ Hn) in Hd. discriminate.
Qed.

Lemma data_css : dispatch "css" = Ok (Text css).
Proof. reflexivity. Qed.


Lemma write_output_Ok w w' type :
  job w type = Ok w' →
  ∃ d, dispatch type = Ok d
       ∧ written w' = written w ++ [(output type, d)]
       ∧ console w' = console w ++ ["generated " +:+ output type].
Proof.
  unfold job, write_output. fold dispatch. fold (output type).
  destruct (dispatch type) as [d|e]; simpl; [|done].
  destruct (writeFileSync (disk w) (output type) d) as [fs'|e]; simpl;
    [|done].
  intros [= <-]. by exists d.
Qed.

(** No callback undoes another's write. *)
Lemma Promise_all_written_kept w types x :
  x ∈ written w → x ∈ written (Promise_all job w types).1.
Proof.
  revert w. induction types as [|t ts IH]; intros w Hin; simpl; [done|].
  destruct (job w t) as [w2|e] eqn:Hj; simpl; [|by apply IH].
  apply IH. apply write_output_Ok in Hj as (d2 & _ & Hw2 & _).
  rewrite Hw2. apply elem_of_app. by left.
Qed.

(** When every callback succeeds, the writes are those of the list. *)
Lemma Promise_all_Ok w types :
  (Promise_all job w types).2 = Ok () →
  (written (Promise_all job w types).1).*1
  = (written w).*1 ++ (output <$> types)
  ∧ Forall (λ type, type ∈ KNOWN_OUTPUTS) types
  ∧ ∀ type d, type ∈ types → dispatch type = Ok d →
      (output type, d) ∈ written (Promise_all job w types).1.
Proof.
  revert w. induction types as [|type types IH]; intros w; simpl.
  - intros _. split_and!; [by rewrite app_nil_r | constructor |].
    intros ? ? H. by apply elem_of_nil in H.
  - destruct (job w type) as [w1|e] eqn:Hjob; [|done].
    intros Hok. destruct (IH w1 Hok) as (Hpaths & Hknown & Hdata).
    apply write_output_Ok in Hjob as (d & Hd & Hw & _).
    split_and!.
    + rewrite Hpaths, Hw, fmap_app. csimpl. by rewrite <- app_assoc.
    + constructor; [by eapply data_Ok | done].
    + intros type' d' Hin Hd'. apply elem_of_cons in Hin as [->|Hin].
      * assert (d' = d) as -> by congruence.
        apply Promise_all_written_kept. rewrite Hw.
        apply elem_of_app. right. apply list_elem_of_here.
      * by apply Hdata.
Qed.

(** One callback that fails makes the whole [Promise.all] fail. *)
Lemma Promise_all_Throw w types type :
  type ∈ types → (∀ w', ∃ e, job w' type = Throw e) →
  ∃ e, (Promise_all job w types).2 = Throw e.
Proof.
  intros Hin Hfail. revert w.
  induction types as [|t ts IH]; intros w; simpl.
  - by apply elem_of_nil in Hin.
  - destruct (job w t) as [w1|e] eqn:Hjob; simpl; [|by exists e].
    apply elem_of_cons in Hin as [->|Hin]; [|by apply IH].
    destruct (Hfail w) as [e He]. congruence.
Qed.

End PipelineFacts.

(** ** What the writer writes *)

Section WriterFacts.

Context {FS : Type}.
Variable path_resolve : string → string → string.
Variable writeFileSync : FS → string → Payload → result FS.
Variable Ttf2Woff : list Byte.byte → result (list Byte.byte).
Variable Ttf2Woff2 : list Byte.byte → result (list Byte.byte).
Variable options : GenerateOptions.
Variables css svg : string.
Variable ttf : list Byte.byte.

Let dispatch := data Ttf2Woff Ttf2Woff2 css svg ttf.
Let job := write_output path_resolve writeFileSync Ttf2Woff Ttf2Woff2
             options css svg ttf.
Let output := output_path path_resolve options.

(** Whatever fails, the writes made are writes of listed, known types, and
    each one is followed by its line on the console. *)
Lemma Promise_all_writes (w : World) (types : list string) :
  ∃ news : list (string * Payload),
    written (Promise_all job w types).1 = written w ++ news
    ∧ console (Promise_all job w types).1
      = console w ++ ((λ pd, "generated " +:+ pd.1) <$> news)
    ∧ Forall (λ pd, ∃ type, type ∈ types ∧ type ∈ KNOWN_OUTPUTS
                            ∧ pd.1 = output type ∧ dispatch type = Ok pd.2)
        news.
Proof.
  revert w. induction types as [|t ts IH]; intros w; simpl.
  - exists []. by rewrite !app_nil_r.
  - destruct (job w t) as [w1|e] eqn:Hjob; simpl.
    + destruct (IH w1) as (news & Hw & Hc & Hall).
      pose proof Hjob as Hjob'.
      apply (write_output_Ok path_resolve writeFileSync Ttf2Woff Ttf2Woff2
               options css svg ttf) in Hjob' as (d & Hd & Hw1 & Hc1).
      fold dispatch in Hd.
      exists ((output t, d) :: news). split_and!.
      * rewrite Hw, Hw1. by rewrite <- app_assoc.
      * rewrite Hc, Hc1. csimpl. by rewrite <- app_assoc.
      * constructor.
        -- exists t. split_and!; [apply list_elem_of_here | | done..].
           by apply (data_Ok Ttf2Woff Ttf2Woff2 css svg ttf t d).
        -- eapply Forall_impl; [exact Hall|].
           intros pd (type & ? & ? & ? & ?). exists type.
           split_and!; [by apply list_elem_of_further | done..].
    + destruct (IH w) as (news & Hw & Hc & Hall).
      exists news. split_and!; [done..|].
      eapply Forall_impl; [exact Hall|].
      intros pd (type & ? & ? & ? & ?). exists type.
      split_and!; [by apply list_elem_of_further | done..].
Qed.

(** On success every listed type has been dispatched and written. *)
Lemma Promise_all_Ok_data (w : World) (types : list string) (type : string) :
  (Promise_all job w types).2 = Ok () → type ∈ types →
  ∃ d, dispatch type = Ok d
       ∧ (output type, d) ∈ written (Promise_all job w types).1.
Proof.
  revert w. induction types as [|t ts IH]; intros w; simpl.
  - intros _ Hin. by apply elem_of_nil in Hin.
  - destruct (job w t) as [w1|e] eqn:Hjob; [|done].
    intros Hok Hin. apply elem_of_cons in Hin as [->|Hin]; [|by apply IH].
    apply (write_output_Ok path_resolve writeFileSync Ttf2Woff Ttf2Woff2
             options css svg ttf) in Hjob as (d & Hd & Hw1 & _).
    exists d. split; [done|].
    apply (Promise_all_written_kept path_resolve writeFileSync Ttf2Woff
             Ttf2Woff2 options css svg ttf).
    rewrite Hw1. apply elem_of_app. right. apply list_elem_of_here.
Qed.

End WriterFacts.

(** ** The order of the callbacks *)

Lemma schedule_Permutation (types : list string) : schedule types ≡ₚ types.
Proof.
  unfold schedule.
  assert (filter (λ type, type = "woff2") types
          = filter (λ type, ¬ type ≠ "woff2") types) as ->.
  { apply list_filter_iff. intros x. split; [by intros -> H|].
    intros H. by destruct (decide (x = "woff2")). }
  apply filter_app_complement.
Qed.

Lemma elem_of_schedule (types : list string) (type : string) :
  type ∈ schedule types ↔ type ∈ types.
Proof. by rewrite schedule_Permutation. Qed.

(** ** The pipeline *)

Section PipelineProperties.

Context {FS : Type}.
Variable path_name : string → string.
Variable path_resolve : string → string → string.
Variable existsSync : FS → string → bool.
Variable mkdirSync : FS → string → result FS.
Variable writeFileSync : FS → string → Payload → result FS.
Variable SvgIcons2Font :
  FS → string → option (SvgIcons2FontOptions * Svg2TTfOptions) →
  list Metadata.t → result string.
Variable Svg2Ttf :
  string → option (SvgIcons2FontOptions * Svg2TTfOptions) →
  result (list Byte.byte).
Variable Ttf2Woff : list Byte.byte → result (list Byte.byte).
Variable Ttf2Woff2 : list Byte.byte → result (list Byte.byte).

Let run := generate path_name path_resolve existsSync mkdirSync writeFileSync
             SvgIcons2Font Svg2Ttf Ttf2Woff Ttf2Woff2.

Lemma generateSvgFont_Ok options fs svg tbl :
  generateSvgFont path_name SvgIcons2Font options fs = Ok (svg, tbl) →
  tbl = table (assign_codepoints path_name options).
Proof.
  unfold generateSvgFont.
  destruct (glyphs_of _ _) as [glyphs|e]; simpl; [|done].
  destruct (SvgIcons2Font _ _ _ _) as [font|e]; simpl; [|done].
  by intros [= _ <-].
Qed.

(** C8: a successful run writes the stylesheet, whether requested or not,
    and one file per requested format ([options.types], or woff2 and woff
    without one), each at [path.resolve(dest, fontName.type)], and nothing
    else. *)
Theorem successful_run_writes (options : GenerateOptions) (w : World) :
  (run options w).2 = Ok () →
  (∃ news : list (string * Payload),
     written (run options w).1 = written w ++ news
     ∧ news.*1 ≡ₚ (output_path path_resolve options
                    <$> "css" :: default ["woff2"; "woff"] (types options)))
  ∧ ((output_path path_resolve options "css",
      Text (generateCssContent options
              (table (assign_codepoints path_name options))))
     ∈ written (run options w).1)
  ∧ Forall (λ type, type ∈ ["ttf"; "woff"; "woff2"; "svg"] ∨ type = "css")
      (default ["woff2"; "woff"] (types options))
  ∧ (∀ type, output_path path_resolve options type
             = path_resolve (dest options)
                 (fontName options +:+ "." +:+ type)).
Proof.
  unfold run, generate.
  destruct (if existsSync (disk w) (dest options) then Ok (disk w)
            else mkdirSync (disk w) (dest options)) as [fs1|e]; [|done].
  destruct (generateSvgFont _ _ _ _) as [[svg tbl]|e] eqn:Hfont; [|done].
  apply generateSvgFont_Ok in Hfont as ->.
  destruct (Svg2Ttf svg _) as [ttf|e]; [|done].
  intros Hok.
  destruct (Promise_all_Ok path_resolve writeFileSync Ttf2Woff Ttf2Woff2
              options _ svg ttf _ _ Hok) as (Hpaths & Hknown & Hdata).
  destruct (Promise_all_writes path_resolve writeFileSync Ttf2Woff Ttf2Woff2
              options
              (generateCssContent options
                 (table (assign_codepoints path_name options))) svg ttf
              {| disk := fs1; written := written w; console := console w |}
              (schedule ("css" :: requested options)))
    as (news & Hw & _ & _).
  split_and!.
  - exists news. split; [exact Hw|].
    rewrite Hw in Hpaths. cbn [written] in Hpaths.
    rewrite fmap_app in Hpaths. apply app_inv_head in Hpaths.
    rewrite Hpaths. by rewrite schedule_Permutation.
  - apply Hdata; [|reflexivity]. apply elem_of_schedule, list_elem_of_here.
  - rewrite Forall_forall in Hknown. apply Forall_forall. intros type Hin.
    assert (type ∈ KNOWN_OUTPUTS) as Hk
      by (apply Hknown, elem_of_schedule; by apply list_elem_of_further).
    revert Hk. unfold KNOWN_OUTPUTS. rewrite !elem_of_cons. tauto.
  - reflexivity.
Qed.


End PipelineProperties.

Lemma successful_run_writes_witness :
  (Sample.generate (listed_request ["a.svg"] ["woff2"; "ttf"; "svg"])).2
  = Ok ()
  ∧ (written (Sample.generate
        (listed_request ["a.svg"] ["woff2"; "ttf"; "svg"])).1).*1
    = ["output/icon.css"; "output/icon.ttf"; "output/icon.svg";
       "output/icon.woff2"]
  ∧ ∃ news : list (string * Payload),
      written (Sample.generate
         (listed_request ["a.svg"] ["woff2"; "ttf"; "svg"])).1
      = written Sample.world ++ news
      ∧ news.*1 ≡ₚ (output_path Sample.path_resolve
                      (listed_request ["a.svg"] ["woff2"; "ttf"; "svg"])
                    <$> "css" :: default ["woff2"; "woff"]
                          (types (listed_request ["a.svg"]
                                    ["woff2"; "ttf"; "svg"]))).
Proof.
  assert ((Sample.generate
             (listed_request ["a.svg"] ["woff2"; "ttf"; "svg"])).2 = Ok ()) as H
    by (vm_compute; reflexivity).
  split_and!; [exact H | vm_compute; reflexivity |].
  exact (proj1 (successful_run_writes posix_name Sample.path_resolve
    Sample.existsSync Sample.mkdirSync Sample.writeFileSync
    Sample.SvgIcons2Font Sample.Svg2Ttf Sample.Ttf2Woff Sample.Ttf2Woff2
    (listed_request ["a.svg"] ["woff2"; "ttf"; "svg"]) Sample.world H)).
Defined.


(** * Further properties of the allocator *)

(** Each further turn of the loop leaves one value of the table behind. *)
Lemma do_while_count (items : list Z) (cur v : Z) :
  do_while items cur v →
  v + Z.of_nat (length (filter (λ x, v < x) items))
  ≤ cur + 1 + Z.of_nat (length (filter (λ x, cur < x) items)).
Proof.
  induction 1 as [cur Hout|cur v Hin _ IH].
  - destruct (above_shrinks items cur) as [Hle _]. lia.
  - apply includes_spec in Hin.
    destruct (above_shrinks items cur) as [_ Hlt]. specialize (Hlt Hin). lia.
Qed.

(** X1: while the cursor and the size of the table stay within the safe
    integers, [newCodepoint] returns the least integer above the cursor that
    is not a value of the table, which is again a safe integer; it moves the
    cursor there and leaves the table alone, and the loop of the source
    stops with exactly that value. *)
Theorem newCodepoint_least (st : Allocator) :
  - 2 ^ 53 < currentCodepoint st →
  currentCodepoint st + Z.of_nat (length (JsObject.values (table st))) + 1
  < 2 ^ 53 →
  do_while (JsObject.values (table st)) (currentCodepoint st)
    (newCodepoint st).1
  ∧ (currentCodepoint st < (newCodepoint st).1)
  ∧ safe_integer (newCodepoint st).1
  ∧ ((newCodepoint st).1 ∉ JsObject.values (table st))
  ∧ (∀ x, currentCodepoint st < x → x < (newCodepoint st).1 →
          x ∈ JsObject.values (table st))
  ∧ currentCodepoint (newCodepoint st).2 = (newCodepoint st).1
  ∧ table (newCodepoint st).2 = table st.
Proof.
  intros Hlow Hhigh.
  pose proof (newCodepoint_do_while st) as Hloop.
  destruct (do_while_spec _ _ _ Hloop) as (Hlt & Hfresh & Hleast).
  pose proof (do_while_count _ _ _ Hloop) as Hcount.
  pose proof (length_filter (λ x, currentCodepoint st < x)
                (JsObject.values (table st))) as Hlen.
  split_and!; try done.
  unfold safe_integer. lia.
Qed.

Lemma newCodepoint_least_witness :
  - 2 ^ 53 < currentCodepoint
      {| table := [("a", 5); ("b", 7); ("c", 6)]; names := ∅;
         currentCodepoint := 4 |}
  ∧ (newCodepoint
       {| table := [("a", 5); ("b", 7); ("c", 6)]; names := ∅;
          currentCodepoint := 4 |}).1 = 8
  ∧ safe_integer
      (newCodepoint
         {| table := [("a", 5); ("b", 7); ("c", 6)]; names := ∅;
            currentCodepoint := 4 |}).1.
Proof.
  assert (- 2 ^ 53 < currentCodepoint
      {| table := [("a", 5); ("b", 7); ("c", 6)]; names := ∅;
         currentCodepoint := 4 |}) as H1 by (simpl; lia).
  assert (currentCodepoint
      {| table := [("a", 5); ("b", 7); ("c", 6)]; names := ∅;
         currentCodepoint := 4 |}
    + Z.of_nat (length (JsObject.values (table
        {| table := [("a", 5); ("b", 7); ("c", 6)]; names := ∅;
           currentCodepoint := 4 |}))) + 1 < 2 ^ 53) as H2
    by (vm_compute; reflexivity).
  split_and!; [exact H1 | reflexivity |].
  exact (proj1 (proj2 (proj2 (newCodepoint_least
    {| table := [("a", 5); ("b", 7); ("c", 6)]; names := ∅;
       currentCodepoint := 4 |} H1 H2)))).
Defined.

Section KeysAndValues.

Variable path_name : string → string.
Variable options : GenerateOptions.

Let resolve := resolve_name path_name options.
Let visit := assign_file path_name options.
Let trace := auto_assigned path_name options.
Let start := default DEFAULT_START_CODEPOINT (startCodepoint options).

Lemma assign_file_keys_elem st file n :
  "__proto__" ∉ (table st).*1 →
  n ∈ (table (visit st file)).*1
  ↔ n ∈ (table st).*1 ∨ (n = resolve file ∧ ordinary n).
Proof.
  intros Hno.
  pose proof (assign_file_table path_name options st file) as Ht.
  fold visit resolve in Ht. rewrite Ht.
  destruct (falsy (JsObject.read (table st) (resolve file))) eqn:Hf.
  - rewrite write_keys_elem.
    pose proof (falsy_read_name _ _ Hf Hno) as Hname.
    apply falsy_read in Hf as [Hget|[Hget Hinh]].
    + apply get_Some_elem in Hget.
      assert (resolve file ∈ (table st).*1) as Hin
        by (apply list_elem_of_fmap; by exists (resolve file, 0)).
      split; [intros [?|[-> _]]; by left|].
      intros [?|[-> _]]; by left.
    + split.
      * intros [?|[-> _]]; [by left | by right].
      * intros [?|[-> _]]; [by left | by right].
  - split; [by left|]. intros [?|[-> Hord]]; [done|].
    unfold JsObject.read in Hf.
    destruct (JsObject.get (table st) (resolve file)) as [v|] eqn:Hget.
    + apply get_Some_elem in Hget. apply list_elem_of_fmap.
      by exists (resolve file, v).
    + unfold ordinary in Hord. by rewrite Hord in Hf.
Qed.

Lemma visit_all_keys_elem st fs n :
  "__proto__" ∉ (table st).*1 →
  n ∈ (table (foldl visit st fs)).*1
  ↔ n ∈ (table st).*1 ∨ (n ∈ resolve <$> fs ∧ ordinary n).
Proof.
  revert st. induction fs as [|f fs IH]; intros st Hno; csimpl.
  - rewrite elem_of_nil. tauto.
  - rewrite IH by (by apply assign_file_no_proto).
    rewrite assign_file_keys_elem by done. rewrite elem_of_cons. tauto.
Qed.

Lemma seed_no_proto (l : JsObject.t) : "__proto__" ∉ (seed l).*1.
Proof. rewrite seed_keys_elem. by intros [_ ?]. Qed.

(** X2: the names of the final table are the override names other than
    [__proto__] and the names the files resolve to that are not members of
    [Object.prototype], and no other. *)
Theorem table_keys_exact (n : string) :
  n ∈ JsObject.keys (table (assign_codepoints path_name options))
  ↔ (n ∈ JsObject.keys (default [] (codepoints options)) ∧ n ≠ "__proto__")
    ∨ (n ∈ resolve_name path_name options <$> files options ∧ ordinary n).
Proof.
  rewrite !keys_Permutation. unfold assign_codepoints.
  fold visit. rewrite visit_all_keys_elem by apply seed_no_proto.
  fold resolve. simpl. by rewrite seed_keys_elem.
Qed.

Lemma visit_all_values_origin st fs (lo : Z) (given : list Z) :
  lo ≤ currentCodepoint st →
  Forall (λ v, v ∈ given ∨ lo < v) (table st).*2 →
  Forall (λ v, v ∈ given ∨ lo < v) (table (foldl visit st fs)).*2.
Proof.
  revert st. induction fs as [|f fs IH]; intros st Hcur Hall; simpl; [done|].
  apply IH.
  - etrans; [exact Hcur|]. apply assign_file_cursor_le.
  - pose proof (assign_file_table path_name options st f) as Ht.
    fold visit resolve in Ht. rewrite Ht.
    destruct (falsy _); [|done].
    apply Forall_forall. intros x Hx.
    apply write_values_elem in Hx as [->|Hx].
    + right.
      destruct (do_while_spec _ _ _ (newCodepoint_do_while st)) as (Hlt & _).
      lia.
    + rewrite Forall_forall in Hall. by apply Hall.
Qed.

Lemma final_values_origin :
  Forall (λ v, v ∈ (default [] (codepoints options)).*2 ∨ start < v)
    (table (assign_codepoints path_name options)).*2.
Proof.
  apply visit_all_values_origin; [simpl; unfold start; lia|].
  apply Forall_forall. intros x Hx. left. simpl in Hx.
  by apply seed_values_elem.
Qed.

(** X3: in a request whose cursor stays within the safe integers, every
    codepoint of the final table is one the overrides gave or lies
    strictly above the starting codepoint. *)
Theorem table_values_origin (v : Z) :
  within_safe_integers options →
  v ∈ JsObject.values (table (assign_codepoints path_name options)) →
  v ∈ JsObject.values (default [] (codepoints options))
  ∨ default DEFAULT_START_CODEPOINT (startCodepoint options) < v.
Proof.
  intros _. rewrite !values_Permutation. intros Hv.
  pose proof final_values_origin as Hall.
  rewrite Forall_forall in Hall. by apply Hall.
Qed.

(** *** How far the cursor can go *)

Lemma write_filter_length (o : JsObject.t) k v (P : Z → Prop)
    `{!∀ x, Decision (P x)} :
  ¬ P v →
  Nat.le (length (filter P (JsObject.write o k v).*2))
         (length (filter P o.*2)).
Proof.
  intros Hv. unfold JsObject.write. case_decide; [done|].
  induction o as [|[k' v'] o IH]; csimpl.
  - by rewrite filter_cons, decide_False.
  - destruct (decide (k' = k)); csimpl; rewrite !filter_cons.
    + rewrite (decide_False (P:=P v)) by done. case_decide; simpl; lia.
    + case_decide; simpl; lia.
Qed.

Let potential (st : Allocator) : Z :=
  currentCodepoint st
  + Z.of_nat (length (filter (λ x, currentCodepoint st < x) (table st).*2)).

Lemma assign_file_potential st file :
  potential (visit st file) ≤ potential st + 1.
Proof.
  unfold potential.
  pose proof (assign_file_table path_name options st file) as Ht.
  pose proof (assign_file_cursor path_name options st file) as Hc.
  fold visit resolve in Ht, Hc. rewrite Ht, Hc.
  destruct (falsy _); [|lia].
  pose proof (do_while_count _ _ _ (newCodepoint_do_while st)) as Hcount.
  rewrite !(values_Permutation (table st)) in Hcount.
  pose proof (write_filter_length (table st) (resolve file)
    (newCodepoint st).1 (λ x, (newCodepoint st).1 < x)) as Hw.
  assert (Nat.le
    (length (filter (λ x, (newCodepoint st).1 < x)
       (JsObject.write (table st) (resolve file) (newCodepoint st).1).*2))
    (length (filter (λ x, (newCodepoint st).1 < x) (table st).*2))) as Hw'
    by (apply Hw; lia).
  lia.
Qed.

Lemma visit_all_potential st fs :
  potential (foldl visit st fs) ≤ potential st + Z.of_nat (length fs).
Proof.
  revert st. induction fs as [|f fs IH]; intros st; simpl; [lia|].
  etrans; [apply IH|]. pose proof (assign_file_potential st f). lia.
Qed.

Lemma trace_below st fs :
  Forall (λ a, assigned_value a ≤ currentCodepoint (foldl visit st fs))
         (trace st fs).
Proof.
  revert st. induction fs as [|f fs IH]; intros st; [constructor|].
  unfold trace. rewrite (trace_cons path_name options). fold trace visit.
  apply Forall_app. split; [|apply IH].
  destruct (falsy (JsObject.read (table st) (resolve_name path_name options f)))
    eqn:Hf; [|constructor].
  apply Forall_singleton. cbn [assigned_value foldl].
  pose proof (assign_file_cursor path_name options st f) as Hc.
  fold visit in Hc. rewrite Hf in Hc. rewrite <- Hc.
  apply visit_all_cursor_le.
Qed.

(** X16: the cursor advances at most once per file and once per override:
    it ends between the starting codepoint and the starting codepoint plus
    the number of files plus the number of overrides.  So in a request
    within the safe integers the final cursor and every auto-assigned
    codepoint are safe integers, on which [+= 1] is exact. *)
Theorem cursor_stays_safe :
  (default DEFAULT_START_CODEPOINT (startCodepoint options)
   ≤ currentCodepoint (assign_codepoints path_name options))
  ∧ (currentCodepoint (assign_codepoints path_name options)
     ≤ default DEFAULT_START_CODEPOINT (startCodepoint options)
       + Z.of_nat (length (files options))
       + Z.of_nat (length (default [] (codepoints options))))
  ∧ (within_safe_integers options →
     safe_integer (currentCodepoint (assign_codepoints path_name options))
     ∧ Forall safe_integer (auto_values path_name options)).
Proof.
  assert (start ≤ currentCodepoint (assign_codepoints path_name options))
    as Hlo by apply (visit_all_cursor_le path_name options (initial options)).
  assert (currentCodepoint (assign_codepoints path_name options)
          ≤ start + Z.of_nat (length (files options))
            + Z.of_nat (length (default [] (codepoints options)))) as Hhi.
  { pose proof (visit_all_potential (initial options) (files options)) as Hp.
    unfold potential in Hp. fold (assign_codepoints path_name options) in Hp.
    pose proof (length_filter (λ x, currentCodepoint (initial options) < x)
                  (table (initial options)).*2) as Hlen.
    rewrite length_fmap in Hlen.
    pose proof (seed_length (default [] (codepoints options))) as Hseed.
    change (foldl visit (initial options) (files options))
      with (assign_codepoints path_name options) in Hp.
    change (currentCodepoint (initial options)) with start in Hp, Hlen.
    change (table (initial options))
      with (seed (default [] (codepoints options))) in Hp, Hlen.
    pose proof (length_filter
      (λ x, currentCodepoint (assign_codepoints path_name options) < x)
      (table (assign_codepoints path_name options)).*2) as Hlen'.
    unfold Nat.le in *. lia. }
  split_and!; [exact Hlo | exact Hhi |].
  intros [Hs1 Hs2]. fold start in Hs1, Hs2. split.
  - unfold safe_integer. lia.
  - unfold auto_values. apply Forall_fmap.
    assert (Forall (λ a, start < assigned_value a
                         ∧ assigned_value a
                           ≤ currentCodepoint
                               (assign_codepoints path_name options))
              (auto_assigned path_name options (initial options)
                 (files options))) as Hboth.
    { apply Forall_and. split.
      - apply (trace_above path_name options (initial options)).
      - apply (trace_below (initial options) (files options)). }
    eapply Forall_impl; [exact Hboth|].
    intros a [Ha1 Ha2]. unfold compose, safe_integer. lia.
Qed.

End KeysAndValues.

Lemma table_values_origin_witness :
  within_safe_integers
    (request ["a.svg"; "b.svg"] None (Some [("a", 65)]) None)
  ∧ (0xf102 ∈ JsObject.values (table (assign_codepoints posix_name
       (request ["a.svg"; "b.svg"] None (Some [("a", 65)]) None))))
  ∧ (0xf102 ∈ JsObject.values (default [] (codepoints
        (request ["a.svg"; "b.svg"] None (Some [("a", 65)]) None)))
     ∨ default DEFAULT_START_CODEPOINT (startCodepoint
         (request ["a.svg"; "b.svg"] None (Some [("a", 65)]) None)) < 0xf102).
Proof.
  assert (within_safe_integers
    (request ["a.svg"; "b.svg"] None (Some [("a", 65)]) None)) as H0
    by (split; vm_compute; reflexivity).
  assert (0xf102 ∈ JsObject.values (table (assign_codepoints posix_name
     (request ["a.svg"; "b.svg"] None (Some [("a", 65)]) None)))) as H
    by (apply (bool_decide_unpack _); vm_compute; reflexivity).
  split_and!; [exact H0 | exact H |].
  exact (table_values_origin posix_name
    (request ["a.svg"; "b.svg"] None (Some [("a", 65)]) None) 0xf102 H0 H).
Defined.

Lemma cursor_stays_safe_witness :
  within_safe_integers
    (request ["a.svg"; "b.svg"] (Some 4) (Some [("x", 5); ("y", 6)]) None)
  ∧ currentCodepoint (assign_codepoints posix_name
      (request ["a.svg"; "b.svg"] (Some 4) (Some [("x", 5); ("y", 6)]) None))
    = 8
  ∧ safe_integer (currentCodepoint (assign_codepoints posix_name
      (request ["a.svg"; "b.svg"] (Some 4) (Some [("x", 5); ("y", 6)]) None))).
Proof.
  assert (within_safe_integers
    (request ["a.svg"; "b.svg"] (Some 4) (Some [("x", 5); ("y", 6)]) None))
    as H by (split; vm_compute; reflexivity).
  split_and!; [exact H | vm_compute; reflexivity |].
  exact (proj1 (proj2 (proj2 (cursor_stays_safe posix_name
    (request ["a.svg"; "b.svg"] (Some 4) (Some [("x", 5); ("y", 6)]) None)))
    H)).
Defined.

Section FreshNames.

Variable path_name : string → string.
Variable options : GenerateOptions.

Let resolve := resolve_name path_name options.
Let visit := assign_file path_name options.
Let trace := auto_assigned path_name options.

(** With every value at or below the cursor, the next free value is the
    one right after it. *)
Lemma newCodepoint_next st :
  Forall (λ v, v ≤ currentCodepoint st) (table st).*2 →
  (newCodepoint st).1 = currentCodepoint st + 1.
Proof.
  intros Hall.
  destruct (do_while_spec _ _ _ (newCodepoint_do_while st))
    as (Hlt & _ & Hleast).
  destruct (decide ((newCodepoint st).1 = currentCodepoint st + 1))
    as [|Hne]; [done|].
  assert (currentCodepoint st + 1 ∈ JsObject.values (table st)) as Hin
    by (apply Hleast; lia).
  rewrite values_Permutation in Hin.
  rewrite Forall_forall in Hall. specialize (Hall _ Hin). lia.
Qed.

Lemma visit_fresh_names st fs :
  Forall (λ v, v ≤ currentCodepoint st) (table st).*2 →
  NoDup (resolve <$> fs) →
  Forall (λ f, (resolve f ∉ (table st).*1) ∧ ordinary (resolve f)) fs →
  table (foldl visit st fs)
  = table st ++ number_from (currentCodepoint st) (resolve <$> fs)
  ∧ currentCodepoint (foldl visit st fs)
    = currentCodepoint st + Z.of_nat (length fs).
Proof.
  revert st. induction fs as [|f fs IH]; intros st Hall Hnd Hnew.
  - simpl. rewrite app_nil_r. split; [done | lia].
  - csimpl in Hnd. apply NoDup_cons in Hnd as [Hf Hnd].
    apply Forall_cons in Hnew as [[Hfnew Hford] Hnew].
    assert (JsObject.get (table st) (resolve f) = None) as Hget
      by by apply get_None.
    assert (falsy (JsObject.read (table st) (resolve f)) = true) as Hfalsy
      by (apply falsy_read; by right).
    assert (resolve f ≠ "__proto__") as Hname
      by (intros Heq; unfold ordinary in Hford; by rewrite Heq in Hford).
    pose proof (assign_file_table path_name options st f) as Ht.
    pose proof (assign_file_cursor path_name options st f) as Hc.
    fold visit resolve in Ht, Hc. rewrite Hfalsy in Ht, Hc.
    rewrite (newCodepoint_next st Hall) in Ht, Hc.
    rewrite write_set, set_absent in Ht by done.
    destruct (IH (visit st f)) as [IHt IHc].
    + rewrite Ht, Hc, fmap_app. apply Forall_app. split.
      * eapply Forall_impl; [exact Hall|]. intros v Hv. simpl in Hv. lia.
      * apply Forall_singleton. simpl. lia.
    + done.
    + rewrite Ht. apply Forall_forall. intros g Hg.
      rewrite Forall_forall in Hnew. destruct (Hnew g Hg) as [Hgnew Hgord].
      split; [|done].
      rewrite fmap_app, elem_of_app. csimpl. intros [Hin|Hin]; [done|].
      apply list_elem_of_singleton in Hin. apply Hf. rewrite <- Hin.
      apply list_elem_of_fmap. by exists g.
    + simpl. fold visit. rewrite IHt, IHc, Ht, Hc. split.
      * csimpl. by rewrite <- app_assoc.
      * lia.
Qed.

(** X4: with no overrides, files that resolve to pairwise distinct names,
    none of them a member of [Object.prototype], and a cursor within the
    safe integers, the names get consecutive codepoints after the starting
    one, in file order, and the cursor ends at the last of them. *)
Theorem sequential_assignment :
  default [] (codepoints options) = [] →
  NoDup (resolve_name path_name options <$> files options) →
  Forall (λ f, ordinary (resolve_name path_name options f)) (files options) →
  within_safe_integers options →
  table (assign_codepoints path_name options)
  = number_from (default DEFAULT_START_CODEPOINT (startCodepoint options))
      (resolve_name path_name options <$> files options)
  ∧ currentCodepoint (assign_codepoints path_name options)
    = default DEFAULT_START_CODEPOINT (startCodepoint options)
      + Z.of_nat (length (files options)).
Proof.
  intros Hnone Hnd Hord _.
  assert (table (initial options) = []) as Hinit
    by (simpl; by rewrite Hnone).
  destruct (visit_fresh_names (initial options) (files options)) as [Ht Hc].
  - rewrite Hinit. constructor.
  - exact Hnd.
  - rewrite Hinit. eapply Forall_impl; [exact Hord|].
    intros f Hf. split; [apply not_elem_of_nil | exact Hf].
  - unfold assign_codepoints. fold visit. rewrite Ht, Hc, Hinit. done.
Qed.

Lemma trace_skips_truthy st fs n v :
  JsObject.get (table st) n = Some v → v ≠ 0 →
  n ∉ assigned_name <$> trace st fs.
Proof.
  revert st. induction fs as [|f fs IH]; intros st Hget Hv.
  - apply not_elem_of_nil.
  - unfold trace. rewrite (trace_cons path_name options), fmap_app.
    apply not_elem_of_app. split.
    + destruct (falsy _) eqn:Hf; [|apply not_elem_of_nil].
      csimpl. intros Hin. apply list_elem_of_singleton in Hin.
      rewrite <- Hin in Hf. by rewrite (falsy_read_truthy _ _ v) in Hf.
    + apply IH; [|done]. by apply assign_file_truthy_kept.
Qed.

(** X5: an override with a non-zero codepoint, under a name other than
    [__proto__], is final: the name keeps it, and [newCodepoint] is never
    called for that name, whatever files resolve to it. *)
Theorem nonzero_override_is_final (n : string) (v : Z) :
  NoDup (default [] (codepoints options)).*1 →
  (n, v) ∈ default [] (codepoints options) →
  n ≠ "__proto__" → v ≠ 0 →
  JsObject.get (table (assign_codepoints path_name options)) n = Some v
  ∧ n ∉ assigned_name <$>
        auto_assigned path_name options (initial options) (files options).
Proof.
  intros Hnd Hin Hn Hv.
  assert (JsObject.get (table (initial options)) n = Some v) as Hseed
    by (simpl; by apply seed_get).
  split.
  - by apply visit_all_truthy_kept.
  - by apply (trace_skips_truthy (initial options) (files options) n v).
Qed.


End FreshNames.

Lemma sequential_assignment_witness :
  default [] (codepoints (request ["b.svg"; "a.svg"; "0.svg"] (Some 9) None None))
  = []
  ∧ NoDup (resolve_name posix_name
             (request ["b.svg"; "a.svg"; "0.svg"] (Some 9) None None)
           <$> files (request ["b.svg"; "a.svg"; "0.svg"] (Some 9) None None))
  ∧ Forall (λ f, ordinary (resolve_name posix_name
                   (request ["b.svg"; "a.svg"; "0.svg"] (Some 9) None None) f))
      (files (request ["b.svg"; "a.svg"; "0.svg"] (Some 9) None None))
  ∧ within_safe_integers
      (request ["b.svg"; "a.svg"; "0.svg"] (Some 9) None None)
  ∧ table (assign_codepoints posix_name
             (request ["b.svg"; "a.svg"; "0.svg"] (Some 9) None None))
    = number_from
        (default DEFAULT_START_CODEPOINT
           (startCodepoint (request ["b.svg"; "a.svg"; "0.svg"] (Some 9) None None)))
        (resolve_name posix_name
           (request ["b.svg"; "a.svg"; "0.svg"] (Some 9) None None)
         <$> files (request ["b.svg"; "a.svg"; "0.svg"] (Some 9) None None)).
Proof.
  assert (NoDup (resolve_name posix_name
             (request ["b.svg"; "a.svg"; "0.svg"] (Some 9) None None)
           <$> files (request ["b.svg"; "a.svg"; "0.svg"] (Some 9) None None)))
    as H by (apply (bool_decide_unpack _); vm_compute; reflexivity).
  assert (Forall (λ f, ordinary (resolve_name posix_name
                   (request ["b.svg"; "a.svg"; "0.svg"] (Some 9) None None) f))
      (files (request ["b.svg"; "a.svg"; "0.svg"] (Some 9) None None))) as H2
    by (repeat constructor).
  assert (within_safe_integers
      (request ["b.svg"; "a.svg"; "0.svg"] (Some 9) None None)) as H3
    by (split; vm_compute; reflexivity).
  split_and!; [reflexivity | exact H | exact H2 | exact H3 |].
  exact (proj1 (sequential_assignment posix_name
    (request ["b.svg"; "a.svg"; "0.svg"] (Some 9) None None) eq_refl H H2 H3)).
Defined.

Lemma nonzero_override_is_final_witness :
  NoDup (default [] (codepoints
    (request ["five.svg"; "a.svg"] None (Some [("five", 65)]) None))).*1
  ∧ ("five", 65) ∈ default [] (codepoints
      (request ["five.svg"; "a.svg"] None (Some [("five", 65)]) None))
  ∧ "five" ≠ "__proto__"
  ∧ 65 ≠ 0
  ∧ JsObject.get (table (assign_codepoints posix_name
      (request ["five.svg"; "a.svg"] None (Some [("five", 65)]) None))) "five"
    = Some 65.
Proof.
  assert (NoDup (default [] (codepoints
    (request ["five.svg"; "a.svg"] None (Some [("five", 65)]) None))).*1) as H1
    by (apply (bool_decide_unpack _); vm_compute; reflexivity).
  assert (("five", 65) ∈ default [] (codepoints
      (request ["five.svg"; "a.svg"] None (Some [("five", 65)]) None))) as H2
    by apply list_elem_of_here.
  assert ("five" ≠ "__proto__") as H0 by discriminate.
  assert (65 ≠ 0) as H3 by lia.
  split_and!; [exact H1 | exact H2 | exact H0 | exact H3 |].
  exact (proj1 (nonzero_override_is_final posix_name
    (request ["five.svg"; "a.svg"] None (Some [("five", 65)]) None)
    "five" 65 H1 H2 H0 H3)).
Defined.


(** * Further properties of the glyph records *)





Section GlyphFacts.

Variable st : Allocator.
Variable resolve : string → string.



End GlyphFacts.




(** * Further properties of the writer and the pipeline *)

Section WriterIndependence.

Context {FS : Type}.
Variable path_resolve : string → string → string.
Variable writeFileSync : FS → string → Payload → result FS.
Variable Ttf2Woff : list Byte.byte → result (list Byte.byte).
Variable Ttf2Woff2 : list Byte.byte → result (list Byte.byte).
Variable options : GenerateOptions.
Variables css svg : string.
Variable ttf : list Byte.byte.

Let dispatch := data Ttf2Woff Ttf2Woff2 css svg ttf.
Let job := write_output path_resolve writeFileSync Ttf2Woff Ttf2Woff2
             options css svg ttf.
Let output := output_path path_resolve options.

(** A callback whose payload and write succeed leaves its file, whatever
    the callbacks around it do. *)
Lemma Promise_all_job_written (w : World) (types : list string)
    (type : string) (d : Payload) :
  type ∈ types → dispatch type = Ok d →
  (∀ fs, ∃ fs', writeFileSync fs (output type) d = Ok fs') →
  (output type, d) ∈ written (Promise_all job w types).1.
Proof.
  intros Hin Hd Hwrite. revert w.
  induction types as [|t ts IH]; intros w; [by apply elem_of_nil in Hin|].
  apply elem_of_cons in Hin as [<-|Hin].
  - cbn [Promise_all].
    assert (∃ fs', job w type
              = Ok {| disk := fs';
                      written := written w ++ [(output type, d)];
                      console := console w ++ ["generated " +:+ output type] |})
      as [fs' ->].
    { destruct (Hwrite (disk w)) as [fs' Hfs']. exists fs'.
      unfold job, write_output. fold dispatch. fold (output type).
      rewrite Hd. cbn [mbind result_bind]. rewrite Hfs'. reflexivity. }
    apply (Promise_all_written_kept path_resolve writeFileSync Ttf2Woff
             Ttf2Woff2 options css svg ttf).
    cbn [written]. apply elem_of_app. right. apply list_elem_of_here.
  - cbn [Promise_all]. destruct (job w t) as [w1|e]; by apply IH.
Qed.

End WriterIndependence.

Section PipelineExtras.

Context {FS : Type}.
Variable path_name : string → string.
Variable path_resolve : string → string → string.
Variable existsSync : FS → string → bool.
Variable mkdirSync : FS → string → result FS.
Variable writeFileSync : FS → string → Payload → result FS.
Variable SvgIcons2Font :
  FS → string → option (SvgIcons2FontOptions * Svg2TTfOptions) →
  list Metadata.t → result string.
Variable Svg2Ttf :
  string → option (SvgIcons2FontOptions * Svg2TTfOptions) →
  result (list Byte.byte).
Variable Ttf2Woff : list Byte.byte → result (list Byte.byte).
Variable Ttf2Woff2 : list Byte.byte → result (list Byte.byte).

Let run := generate path_name path_resolve existsSync mkdirSync writeFileSync
             SvgIcons2Font Svg2Ttf Ttf2Woff Ttf2Woff2.
Let ensure := ensure_dest existsSync mkdirSync.
Let assemble := generateSvgFont path_name SvgIcons2Font.
Let output := output_path path_resolve.


(** X8: a failure of any stage before the writer (creating the destination,
    assembling the font, converting it to TrueType) is the failure of the
    run, unchanged, and leaves nothing written and nothing logged. *)
Theorem failure_before_writer_writes_nothing (options : GenerateOptions)
    (w : World) (e : JsError) :
  ensure options (disk w) = Throw e
  ∨ (∃ fs1, ensure options (disk w) = Ok fs1
            ∧ assemble options fs1 = Throw e)
  ∨ (∃ fs1 svg tbl, ensure options (disk w) = Ok fs1
                    ∧ assemble options fs1 = Ok (svg, tbl)
                    ∧ Svg2Ttf svg (options_of options) = Throw e) →
  (run options w).2 = Throw e
  ∧ written (run options w).1 = written w
  ∧ console (run options w).1 = console w.
Proof.
  unfold run, generate, ensure, ensure_dest, assemble.
  intros [Hmade|[(fs1 & Hmade & Hfont)|(fs1 & svg & tbl & Hmade & Hfont & Httf)]];
    rewrite Hmade; [done| |].
  - by rewrite Hfont.
  - by rewrite Hfont, Httf.
Qed.

(** X9: in every run, failed or not, each file written is
    [path.resolve(dest, fontName.type)] for a known type of the list
    ['css', ...types], and the console gets one [generated <path>] line per
    completed write, in the same order. *)
Theorem writes_are_listed_and_logged (options : GenerateOptions) (w : World) :
  ∃ news : list (string * Payload),
    written (run options w).1 = written w ++ news
    ∧ console (run options w).1
      = console w ++ ((λ pd, "generated " +:+ pd.1) <$> news)
    ∧ Forall (λ pd, ∃ type, type ∈ "css" :: requested options
                            ∧ type ∈ ["css"; "ttf"; "woff"; "woff2"; "svg"]
                            ∧ pd.1 = output options type) news.
Proof.
  unfold run, generate.
  destruct (if existsSync (disk w) (dest options) then Ok (disk w)
            else mkdirSync (disk w) (dest options)) as [fs1|e];
    [|exists []; by rewrite !app_nil_r].
  destruct (generateSvgFont _ _ _ _) as [[svg tbl]|e];
    [|exists []; by rewrite !app_nil_r].
  destruct (Svg2Ttf svg _) as [ttf|e]; [|exists []; by rewrite !app_nil_r].
  destruct (Promise_all_writes path_resolve writeFileSync Ttf2Woff Ttf2Woff2
              options (generateCssContent options tbl) svg ttf
              {| disk := fs1; written := written w; console := console w |}
              (schedule ("css" :: requested options)))
    as (news & Hw & Hc & Hall).
  exists news. split_and!; [exact Hw | exact Hc |].
  eapply Forall_impl; [exact Hall|].
  intros pd (type & Hin & Hk & Hp & _). exists type.
  apply (proj1 (elem_of_schedule _ _)) in Hin.
  split; [exact Hin|]. split; [exact Hk|].
  exact Hp.
Qed.

(** X10: in a successful run the stages compose as written: the glyph
    records go to the assembler, its document to the TrueType converter,
    and the files hold the document itself (svg), the TrueType bytes (ttf)
    and what the two WOFF converters make of those bytes. *)
Theorem successful_run_payloads (options : GenerateOptions) (w : World) :
  (run options w).2 = Ok () →
  ∃ fs1 glyphs svg ttf,
    ensure options (disk w) = Ok fs1
    ∧ glyphs_of (assign_codepoints path_name options) (files options)
      = Ok glyphs
    ∧ SvgIcons2Font fs1 (fontName options) (options_of options) glyphs = Ok svg
    ∧ Svg2Ttf svg (options_of options) = Ok ttf
    ∧ ("svg" ∈ requested options →
       (output options "svg", Text svg) ∈ written (run options w).1)
    ∧ ("ttf" ∈ requested options →
       (output options "ttf", Binary ttf) ∈ written (run options w).1)
    ∧ ("woff" ∈ requested options →
       ∃ b, Ttf2Woff ttf = Ok b
            ∧ (output options "woff", Binary b) ∈ written (run options w).1)
    ∧ ("woff2" ∈ requested options →
       ∃ b, Ttf2Woff2 ttf = Ok b
            ∧ (output options "woff2", Binary b) ∈ written (run options w).1).
Proof.
  unfold run, generate, ensure, ensure_dest, output.
  destruct (if existsSync (disk w) (dest options) then Ok (disk w)
            else mkdirSync (disk w) (dest options)) as [fs1|e]; [|done].
  destruct (generateSvgFont path_name SvgIcons2Font options fs1)
    as [[svg tbl]|e] eqn:Hfont; [|done].
  destruct (Svg2Ttf svg _) as [ttf|e] eqn:Httf; [|done].
  intros Hok. unfold generateSvgFont in Hfont.
  destruct (glyphs_of _ _) as [glyphs|e] eqn:Hglyphs; [|done].
  cbn [mbind result_bind] in Hfont.
  destruct (SvgIcons2Font fs1 _ _ glyphs) as [svg'|e] eqn:Hsvg; [|done].
  cbn [mbind result_bind] in Hfont. injection Hfont as -> <-.
  exists fs1, glyphs, svg, ttf.
  pose proof (λ type, Promise_all_Ok_data path_resolve writeFileSync Ttf2Woff
    Ttf2Woff2 options _ svg ttf _ _ type Hok) as Hdata.
  split_and!; [done..| | | |]; intros Hreq.
  - destruct (Hdata "svg") as (d & Hd & Hin);
      [apply elem_of_schedule; by apply list_elem_of_further|].
    injection Hd as <-. exact Hin.
  - destruct (Hdata "ttf") as (d & Hd & Hin);
      [apply elem_of_schedule; by apply list_elem_of_further|].
    injection Hd as <-. exact Hin.
  - destruct (Hdata "woff") as (d & Hd & Hin);
      [apply elem_of_schedule; by apply list_elem_of_further|].
    unfold data in Hd. simpl in Hd.
    destruct (Ttf2Woff ttf) as [b|e]; [|done].
    injection Hd as <-. by exists b.
  - destruct (Hdata "woff2") as (d & Hd & Hin);
      [apply elem_of_schedule; by apply list_elem_of_further|].
    unfold data in Hd. simpl in Hd.
    destruct (Ttf2Woff2 ttf) as [b|e]; [|done].
    injection Hd as <-. by exists b.
Qed.

(** X11: the callbacks do not wait for each other and none is cancelled
    by another's failure: once the font is assembled and converted, every
    type of the list whose payload is available and whose write succeeds is
    written with that payload, also in a run that fails on another type,
    wherever the two stand in the list. *)
Theorem outputs_written_despite_failure (options : GenerateOptions)
    (w : World) (fs1 : FS) (svg : string) (tbl : JsObject.t)
    (ttf : list Byte.byte) (type : string) (d : Payload) :
  ensure options (disk w) = Ok fs1 →
  assemble options fs1 = Ok (svg, tbl) →
  Svg2Ttf svg (options_of options) = Ok ttf →
  type ∈ "css" :: default ["woff2"; "woff"] (types options) →
  data Ttf2Woff Ttf2Woff2
    (generateCssContent options (table (assign_codepoints path_name options)))
    svg ttf type = Ok d →
  (∀ fs, ∃ fs', writeFileSync fs (output options type) d = Ok fs') →
  (output options type, d) ∈ written (run options w).1.
Proof.
  unfold run, generate, ensure, ensure_dest, assemble, output.
  intros Hmade Hfont Httf Hin Hd Hwrite. rewrite Hmade, Hfont, Httf.
  apply (generateSvgFont_Ok path_name SvgIcons2Font) in Hfont as ->.
  apply Promise_all_job_written; [|done..].
  by apply elem_of_schedule.
Qed.

End PipelineExtras.


Lemma failure_before_writer_writes_nothing_witness :
  ensure_dest missing_dest mkdir_denied (request ["a.svg"] None None None)
    (disk Sample.world) = Throw (Error "EACCES")
  ∧ (generate posix_name Sample.path_resolve missing_dest mkdir_denied
       Sample.writeFileSync Sample.SvgIcons2Font Sample.Svg2Ttf Sample.Ttf2Woff
       Sample.Ttf2Woff2 (request ["a.svg"] None None None) Sample.world).2
    = Throw (Error "EACCES").
Proof.
  assert (ensure_dest missing_dest mkdir_denied
            (request ["a.svg"] None None None) (disk Sample.world)
          = Throw (Error "EACCES")) as H by reflexivity.
  split; [exact H|].
  exact (proj1 (failure_before_writer_writes_nothing posix_name
    Sample.path_resolve missing_dest mkdir_denied Sample.writeFileSync
    Sample.SvgIcons2Font Sample.Svg2Ttf Sample.Ttf2Woff Sample.Ttf2Woff2
    (request ["a.svg"] None None None) Sample.world (Error "EACCES")
    (or_introl H))).
Defined.

Lemma successful_run_payloads_witness :
  (Sample.generate (request ["a.svg"] None None None)).2 = Ok ()
  ∧ ∃ glyphs,
      glyphs_of (assign_codepoints posix_name (request ["a.svg"] None None None))
        (files (request ["a.svg"] None None None)) = Ok glyphs.
Proof.
  assert ((Sample.generate (request ["a.svg"] None None None)).2 = Ok ()) as H
    by (vm_compute; reflexivity).
  split; [exact H|].
  destruct (successful_run_payloads posix_name Sample.path_resolve
    Sample.existsSync Sample.mkdirSync Sample.writeFileSync
    Sample.SvgIcons2Font Sample.Svg2Ttf Sample.Ttf2Woff Sample.Ttf2Woff2
    (request ["a.svg"] None None None) Sample.world H)
    as (fs1 & glyphs & svg & ttf & _ & Hg & _).
  exists glyphs. exact Hg.
Defined.

Lemma outputs_written_despite_failure_witness :
  (Sample.generate (listed_request ["a.svg"] ["eot"; "woff"])).2
  = Throw (Error EmptyString)
  ∧ (written (Sample.generate (listed_request ["a.svg"] ["eot"; "woff"])).1).*1
    = ["output/icon.css"; "output/icon.woff"]
  ∧ (output_path Sample.path_resolve
       (listed_request ["a.svg"] ["eot"; "woff"]) "woff", Binary [])
    ∈ written (Sample.generate (listed_request ["a.svg"] ["eot"; "woff"])).1.
Proof.
  split_and!; [vm_compute; reflexivity..|].
  refine (outputs_written_despite_failure posix_name Sample.path_resolve
    Sample.existsSync Sample.mkdirSync Sample.writeFileSync
    Sample.SvgIcons2Font Sample.Svg2Ttf Sample.Ttf2Woff Sample.Ttf2Woff2
    (listed_request ["a.svg"] ["eot"; "woff"]) Sample.world () "<svg/>"
    (table (assign_codepoints posix_name
       (listed_request ["a.svg"] ["eot"; "woff"]))) [] "woff" (Binary [])
    eq_refl _ eq_refl _ eq_refl _).
  - vm_compute. reflexivity.
  - apply list_elem_of_further, list_elem_of_further, list_elem_of_here.
  - intros fs. exists fs. reflexivity.
Defined.


(** * Further properties of the stylesheet *)



Lemma append_inj_l (s t1 t2 : string) : s +:+ t1 = s +:+ t2 → t1 = t2.
Proof.
  induction s as [|a s IH]; simpl; [done|]. intros [= H]. by apply IH.
Qed.

Lemma append_inj_both (s1 s2 t1 t2 : string) :
  String.length s1 = String.length s2 →
  s1 +:+ t1 = s2 +:+ t2 → s1 = s2 ∧ t1 = t2.
Proof.
  revert s2. induction s1 as [|a s1 IH]; intros [|b s2]; simpl; try done.
  intros [= Hlen] [= -> Happ]. destruct (IH s2 Hlen Happ) as [-> ->]. done.
Qed.

Lemma append_length (s t : string) :
  String.length (s +:+ t) = (String.length s + String.length t)%nat.
Proof. induction s as [|a s IH]; simpl; [done|]. by rewrite IH. Qed.

Lemma append_inj_r (s1 s2 t : string) : s1 +:+ t = s2 +:+ t → s1 = s2.
Proof.
  intros H. apply (append_inj_both s1 s2 t t); [|done].
  apply (f_equal String.length) in H. rewrite !append_length in H. lia.
Qed.

Lemma toString16_inj (a b : Z) : toString16 a = toString16 b → a = b.
Proof.
  assert (∀ p q, HexString.Raw.of_pos p EmptyString
                 = HexString.Raw.of_pos q EmptyString → p = q) as Hpos.
  { intros p q H. apply (f_equal (λ s, HexString.Raw.to_N s 0%N)) in H.
    rewrite !(HexString.Raw.to_N_of_pos _ EmptyString 0%N) in H.
    simpl in H. by injection H. }
  assert (∀ p c s, HexString.Raw.of_pos p EmptyString = String c s →
                   c ≠ "0"%char ∧ c ≠ "-"%char) as Hhead.
  { intros p c s H.
    destruct (of_pos_shape p EmptyString) as (c' & s' & Heq & Hc & Hl & _).
    rewrite Heq in H. injection H as -> _. split; [done|].
    intros ->. revert Hl. unfold lower_hex.
    apply (bool_decide_unpack _). vm_compute. reflexivity. }
  destruct a as [|p|p], b as [|q|q]; simpl; intros H; try done.
  - symmetry in H. by destruct (Hhead _ _ _ H).
  - by destruct (Hhead _ _ _ H).
  - f_equal. by apply Hpos.
  - by destruct (Hhead _ _ _ H).
  - symmetry in H. by destruct (Hhead _ _ _ H).
  - injection H as H. f_equal. by apply Hpos.
Qed.

(** X13: the rule of a name tells its codepoint: two different codepoints
    never give the same per-icon rule (negative ones included). *)
Theorem distinct_codepoints_distinct_rules (options : GenerateOptions)
    (name : string) (v1 v2 : Z) :
  v1 ≠ v2 → icon_rule options (name, v1) ≠ icon_rule options (name, v2).
Proof.
  intros Hne Heq. apply Hne. apply toString16_inj.
  unfold icon_rule in Heq. cbn [fst snd] in Heq.
  do 6 apply append_inj_l in Heq.
  apply append_inj_r in Heq. by apply append_inj_l in Heq.
Qed.

Lemma distinct_codepoints_distinct_rules_witness :
  0xf102 ≠ 0xf103
  ∧ icon_rule (request [] None None None) ("a", 0xf102)
    ≠ icon_rule (request [] None None None) ("a", 0xf103).
Proof.
  assert (0xf102 ≠ 0xf103) as H by lia.
  split; [exact H|].
  exact (distinct_codepoints_distinct_rules (request [] None None None)
           "a" 0xf102 0xf103 H).
Defined.

(** * Visiting a name again *)

Section SecondPass.

Variable path_name : string → string.
Variable options : GenerateOptions.

Let resolve := resolve_name path_name options.
Let visit := assign_file path_name options.

Lemma visit_known_names st fs :
  Forall (λ f, falsy (JsObject.read (table st) (resolve f)) = false) fs →
  table (foldl visit st fs) = table st
  ∧ currentCodepoint (foldl visit st fs) = currentCodepoint st.
Proof.
  revert st. induction fs as [|f fs IH]; intros st Hall; simpl; [done|].
  apply Forall_cons in Hall as [Hf Hall].
  pose proof (assign_file_table path_name options st f) as Ht.
  pose proof (assign_file_cursor path_name options st f) as Hc.
  fold visit resolve in Ht, Hc. rewrite Hf in Ht, Hc.
  destruct (IH (visit st f)) as [IHt IHc]; [by rewrite Ht|].
  by rewrite IHt, IHc, Ht, Hc.
Qed.

(** X14: with a non-negative starting codepoint and no override equal to 0,
    no name of the final table has codepoint 0, so visiting the files once
    more (a file listed twice, two files with one name) changes neither the
    table nor the cursor. *)
Theorem second_pass_changes_nothing :
  0 ≤ default DEFAULT_START_CODEPOINT (startCodepoint options) →
  0 ∉ JsObject.values (default [] (codepoints options)) →
  (0 ∉ JsObject.values (table (assign_codepoints path_name options)))
  ∧ table (foldl (assign_file path_name options)
             (assign_codepoints path_name options) (files options))
    = table (assign_codepoints path_name options)
  ∧ currentCodepoint (foldl (assign_file path_name options)
                        (assign_codepoints path_name options) (files options))
    = currentCodepoint (assign_codepoints path_name options).
Proof.
  intros Hstart Hzero.
  assert (Forall (λ v, v ∈ (default [] (codepoints options)).*2
                       ∨ default DEFAULT_START_CODEPOINT
                           (startCodepoint options) < v)
            (table (assign_codepoints path_name options)).*2) as Hall.
  { apply visit_all_values_origin; [simpl; lia|].
    apply Forall_forall. intros x Hx. left. simpl in Hx.
    by apply seed_values_elem in Hx. }
  rewrite values_Permutation in Hzero.
  assert (0 ∉ (table (assign_codepoints path_name options)).*2) as Hnz.
  { intros Hin. rewrite Forall_forall in Hall.
    destruct (Hall 0 Hin) as [?|?]; [done | lia]. }
  split; [by rewrite values_Permutation|].
  apply visit_known_names. apply Forall_forall. intros f Hf.
  destruct (falsy (JsObject.read (table (assign_codepoints path_name options))
                     (resolve_name path_name options f))) eqn:Hfalsy; [|done].
  exfalso. apply falsy_read in Hfalsy as [Hget|[Hget Hord]].
  - apply Hnz. apply get_Some_elem in Hget. apply list_elem_of_fmap.
    by exists (resolve_name path_name options f, 0).
  - destruct (visit_all_visited path_name options (initial options)
                (files options) f Hf Hord) as [v Hv].
    unfold assign_codepoints in Hget. congruence.
Qed.

End SecondPass.

Lemma second_pass_changes_nothing_witness :
  (0 ≤ default DEFAULT_START_CODEPOINT (startCodepoint
         (request ["a.svg"; "b.svg"; "a.svg"] None (Some [("b", 65)]) None)))
  ∧ (0 ∉ JsObject.values (default [] (codepoints
         (request ["a.svg"; "b.svg"; "a.svg"] None (Some [("b", 65)]) None))))
  ∧ (0 ∉ JsObject.values (table (assign_codepoints posix_name
         (request ["a.svg"; "b.svg"; "a.svg"] None (Some [("b", 65)]) None)))).
Proof.
  assert (0 ≤ default DEFAULT_START_CODEPOINT (startCodepoint
        (request ["a.svg"; "b.svg"; "a.svg"] None (Some [("b", 65)]) None)))
    as H1 by (vm_compute; discriminate).
  assert (0 ∉ JsObject.values (default [] (codepoints
        (request ["a.svg"; "b.svg"; "a.svg"] None (Some [("b", 65)]) None))))
    as H2 by (apply (bool_decide_unpack _); vm_compute; reflexivity).
  split_and!; [exact H1 | exact H2 |].
  exact (proj1 (second_pass_changes_nothing posix_name
    (request ["a.svg"; "b.svg"; "a.svg"] None (Some [("b", 65)]) None) H1 H2)).
Defined.

(** * A callback that fails *)

Section WriterFailure.

Context {FS : Type}.
Variable path_name : string → string.
Variable path_resolve : string → string → string.
Variable existsSync : FS → string → bool.
Variable mkdirSync : FS → string → result FS.
Variable writeFileSync : FS → string → Payload → result FS.
Variable SvgIcons2Font :
  FS → string → option (SvgIcons2FontOptions * Svg2TTfOptions) →
  list Metadata.t → result string.
Variable Svg2Ttf :
  string → option (SvgIcons2FontOptions * Svg2TTfOptions) →
  result (list Byte.byte).
Variable Ttf2Woff : list Byte.byte → result (list Byte.byte).
Variable Ttf2Woff2 : list Byte.byte → result (list Byte.byte).

Let run := generate path_name path_resolve existsSync mkdirSync writeFileSync
             SvgIcons2Font Svg2Ttf Ttf2Woff Ttf2Woff2.

(** X15: when one of the two WOFF converters rejects the TrueType bytes and
    its format is requested, the run fails, and no file of that format is
    written. *)
Theorem converter_failure_fails_run (options : GenerateOptions) (w : World)
    (fs1 : FS) (svg : string) (tbl : JsObject.t) (ttf : list Byte.byte)
    (type : string) (e : JsError) :
  ensure_dest existsSync mkdirSync options (disk w) = Ok fs1 →
  generateSvgFont path_name SvgIcons2Font options fs1 = Ok (svg, tbl) →
  Svg2Ttf svg (options_of options) = Ok ttf →
  type ∈ requested options →
  (type = "woff" ∧ Ttf2Woff ttf = Throw e)
  ∨ (type = "woff2" ∧ Ttf2Woff2 ttf = Throw e) →
  (∃ e', (run options w).2 = Throw e')
  ∧ ∃ news : list (string * Payload),
      written (run options w).1 = written w ++ news
      ∧ Forall (λ pd, ∃ type', type' ≠ type
                               ∧ pd.1 = output_path path_resolve options type')
          news.
Proof.
  unfold run, generate, ensure_dest.
  intros Hmade Hfont Httf Hreq Hfail. rewrite Hmade, Hfont, Httf.
  assert (data Ttf2Woff Ttf2Woff2 (generateCssContent options tbl) svg ttf type
          = Throw e) as Hdata.
  { destruct Hfail as [[-> Hw]|[-> Hw]]; unfold data; simpl; by rewrite Hw. }
  split.
  - eapply Promise_all_Throw;
      [apply elem_of_schedule; by apply list_elem_of_further|].
    intros w'. exists e. unfold write_output. by rewrite Hdata.
  - destruct (Promise_all_writes path_resolve writeFileSync Ttf2Woff Ttf2Woff2
                options (generateCssContent options tbl) svg ttf
                {| disk := fs1; written := written w; console := console w |}
                (schedule ("css" :: requested options)))
      as (news & Hw & _ & Hall).
    exists news. split; [exact Hw|].
    eapply Forall_impl; [exact Hall|].
    intros pd (type' & _ & _ & Hpath & Hd). cbv beta in Hpath, Hd.
    exists type'. split; [|done]. intros ->. rewrite Hdata in Hd. done.
Qed.

End WriterFailure.

Lemma converter_failure_fails_run_witness :
  "woff" ∈ requested (typed_request "icon" (Some ["woff"; "ttf"]))
  ∧ ∃ e, (generate posix_name Sample.path_resolve Sample.existsSync
            Sample.mkdirSync Sample.writeFileSync Sample.SvgIcons2Font
            Sample.Svg2Ttf (λ _, Throw (Error "bad font")) Sample.Ttf2Woff2
            (typed_request "icon" (Some ["woff"; "ttf"])) Sample.world).2
         = Throw e.
Proof.
  assert ("woff" ∈ requested (typed_request "icon" (Some ["woff"; "ttf"])))
    as H by apply list_elem_of_here.
  split; [exact H|].
  exact (proj1 (converter_failure_fails_run posix_name Sample.path_resolve
    Sample.existsSync Sample.mkdirSync Sample.writeFileSync
    Sample.SvgIcons2Font Sample.Svg2Ttf (λ _, Throw (Error "bad font"))
    Sample.Ttf2Woff2 (typed_request "icon" (Some ["woff"; "ttf"])) Sample.world
    () "<svg/>" [] [] "woff" (Error "bad font")
    eq_refl eq_refl eq_refl H (or_introl (conj eq_refl eq_refl)))).
Defined.

(** * Overrides without an icon *)

Lemma append_assoc (s t u : string) : (s +:+ t) +:+ u = s +:+ t +:+ u.
Proof.
  induction s as [|a s IH]; [done|].
  change (String a ((s +:+ t) +:+ u) = String a (s +:+ t +:+ u)).
  by rewrite IH.
Qed.

Lemma append_empty_r (s : string) : s +:+ EmptyString = s.
Proof.
  induction s as [|a s IH]; [done|].
  change (String a (s +:+ EmptyString) = String a s). by rewrite IH.
Qed.

(** In a text joined by [sep], each element after the first follows a
    separator. *)
Lemma concat_elem (sep a x : string) (l : list string) :
  x ∈ l →
  ∃ before after, String.concat sep (a :: l) = before +:+ sep +:+ x +:+ after.
Proof.
  revert a. induction l as [|b l IH]; intros a Hin;
    [by apply elem_of_nil in Hin|].
  change (String.concat sep (a :: b :: l))
    with (a +:+ sep +:+ String.concat sep (b :: l)).
  apply elem_of_cons in Hin as [->|Hin].
  - exists a. destruct l as [|c l].
    + exists EmptyString. simpl. by rewrite append_empty_r.
    + exists (sep +:+ String.concat sep (c :: l)). reflexivity.
  - destruct (IH b Hin) as (before & after & ->).
    exists (a +:+ sep +:+ before), after. by rewrite !append_assoc.
Qed.

(** X18: an override whose name is not [__proto__] and matches no source
    file stays in the final table as given, its per-icon rule is a line of
    the generated stylesheet, and no glyph record carries its name. *)
Theorem unmatched_override_has_rule (path_name : string → string)
    (options : GenerateOptions) (n : string) (v : Z) :
  NoDup (default [] (codepoints options)).*1 →
  (n, v) ∈ default [] (codepoints options) →
  n ≠ "__proto__" →
  Forall (λ f, resolve_name path_name options f ≠ n) (files options) →
  (n, v) ∈ JsObject.entries (table (assign_codepoints path_name options))
  ∧ (∃ before after,
       generateCssContent options
         (table (assign_codepoints path_name options))
       = before +:+ newline +:+ icon_rule options (n, v) +:+ after)
  ∧ ∀ glyphs,
      glyphs_of (assign_codepoints path_name options) (files options)
      = Ok glyphs →
      n ∉ Metadata.name <$> glyphs.
Proof.
  intros Hnd Hin Hn Hfiles.
  assert (JsObject.get (table (assign_codepoints path_name options)) n
          = Some v) as Hget.
  { unfold assign_codepoints. rewrite visit_all_other by done.
    simpl. by apply seed_get. }
  apply get_Some_elem in Hget. rewrite <- entries_Permutation in Hget.
  split_and!; [done| |].
  - unfold generateCssContent. apply concat_elem.
    apply list_elem_of_further. unfold icon_rules.
    apply list_elem_of_fmap. by exists (n, v).
  - intros glyphs Hg. rewrite (glyphs_of_names _ _ _ Hg).
    rewrite list_elem_of_fmap. intros (f & Hname & Hf).
    unfold assign_codepoints in Hname.
    rewrite (visit_all_names path_name options _ _ _ Hf) in Hname.
    simpl in Hname. rewrite Forall_forall in Hfiles.
    by apply (Hfiles f Hf).
Qed.

Lemma unmatched_override_has_rule_witness :
  NoDup (default [] (codepoints
    (request ["a.svg"] None (Some [("ghost", 65)]) None))).*1
  ∧ ("ghost", 65) ∈ default [] (codepoints
      (request ["a.svg"] None (Some [("ghost", 65)]) None))
  ∧ "ghost" ≠ "__proto__"
  ∧ Forall (λ f, resolve_name posix_name
              (request ["a.svg"] None (Some [("ghost", 65)]) None) f ≠ "ghost")
      (files (request ["a.svg"] None (Some [("ghost", 65)]) None))
  ∧ ("ghost", 65) ∈ JsObject.entries (table (assign_codepoints posix_name
      (request ["a.svg"] None (Some [("ghost", 65)]) None))).
Proof.
  assert (NoDup (default [] (codepoints
    (request ["a.svg"] None (Some [("ghost", 65)]) None))).*1) as H1
    by (apply (bool_decide_unpack _); vm_compute; reflexivity).
  assert (("ghost", 65) ∈ default [] (codepoints
      (request ["a.svg"] None (Some [("ghost", 65)]) None))) as H2
    by apply list_elem_of_here.
  assert ("ghost" ≠ "__proto__") as H0 by discriminate.
  assert (Forall (λ f, resolve_name posix_name
              (request ["a.svg"] None (Some [("ghost", 65)]) None) f ≠ "ghost")
      (files (request ["a.svg"] None (Some [("ghost", 65)]) None))) as H3
    by (apply (bool_decide_unpack _); vm_compute; reflexivity).
  split_and!; [exact H1 | exact H2 | exact H0 | exact H3 |].
  exact (proj1 (unmatched_override_has_rule posix_name
    (request ["a.svg"] None (Some [("ghost", 65)]) None) "ghost" 65
    H1 H2 H0 H3)).
Defined.

(** * Names that the table inherits *)

Section MemberNames.

Context {FS : Type}.
Variable path_name : string → string.
Variable path_resolve : string → string → string.
Variable existsSync : FS → string → bool.
Variable mkdirSync : FS → string → result FS.
Variable writeFileSync : FS → string → Payload → result FS.
Variable SvgIcons2Font :
  FS → string → option (SvgIcons2FontOptions * Svg2TTfOptions) →
  list Metadata.t → result string.
Variable Svg2Ttf :
  string → option (SvgIcons2FontOptions * Svg2TTfOptions) →
  result (list Byte.byte).
Variable Ttf2Woff : list Byte.byte → result (list Byte.byte).
Variable Ttf2Woff2 : list Byte.byte → result (list Byte.byte).

Let run := generate path_name path_resolve existsSync mkdirSync writeFileSync
             SvgIcons2Font Svg2Ttf Ttf2Woff Ttf2Woff2.


End MemberNames.


(** * The order of the writes *)

Section WriteOrder.

Context {FS : Type}.
Variable path_name : string → string.
Variable path_resolve : string → string → string.
Variable existsSync : FS → string → bool.
Variable mkdirSync : FS → string → result FS.
Variable writeFileSync : FS → string → Payload → result FS.
Variable SvgIcons2Font :
  FS → string → option (SvgIcons2FontOptions * Svg2TTfOptions) →
  list Metadata.t → result string.
Variable Svg2Ttf :
  string → option (SvgIcons2FontOptions * Svg2TTfOptions) →
  result (list Byte.byte).
Variable Ttf2Woff : list Byte.byte → result (list Byte.byte).
Variable Ttf2Woff2 : list Byte.byte → result (list Byte.byte).

Let run := generate path_name path_resolve existsSync mkdirSync writeFileSync
             SvgIcons2Font Svg2Ttf Ttf2Woff Ttf2Woff2.
Let output := output_path path_resolve.


End WriteOrder.

